(** * remove-tt: stripping [\texttt{...}] markup from a text file

    A shallow embedding of [doc/src/remove-tt.py] of wyrd.

    The script compiles one regular expression, substitutes every match
    of it in the contents of the input file by the text captured by the
    first group, and writes the result to the output file.  The
    embedding has three layers:

    - [Re]: a backtracking matcher for the fragment of Python's [re]
      syntax the pattern uses, and [re.subn] / [re.sub] on top of it;
    - [RemoveTT]: the pattern [tt_regex], the callback [tt_replace] and
      the pure transformation [remove_tt] of the script;
    - [Script]: the script itself, over a store of files, in a state and
      exception monad. *)

From Stdlib Require Import String Ascii List Arith Lia Bool.
From stdpp Require Import gmap strings.

Local Open Scope string_scope.

(** ** Strings *)

Module Str.

(** [drop n s] is the Python slice [s[n:]], [take n s] is [s[:n]]. *)
Fixpoint drop (n : nat) (s : string) : string :=
  match n, s with
  | S k, String _ s' => drop k s'
  | _, _ => s
  end.

Fixpoint take (n : nat) (s : string) : string :=
  match n, s with
  | S k, String c s' => String c (take k s')
  | _, _ => EmptyString
  end.

(** [mem c s]: the character [c] occurs in [s]. *)
Fixpoint mem (c : ascii) (s : string) : bool :=
  match s with
  | EmptyString => false
  | String a s' => Ascii.eqb a c || mem c s'
  end.

(** [strip p s]: the text after the prefix [p] of [s], if [s] has it. *)
Fixpoint strip (p s : string) : option string :=
  match p, s with
  | EmptyString, _ => Some s
  | String a p', String b s' => if Ascii.eqb b a then strip p' s' else None
  | String _ _, EmptyString => None
  end.

(** [starts p s] is [s.startswith(p)]. *)
Definition starts (p s : string) : bool :=
  match strip p s with
  | Some _ => true
  | None => false
  end.

End Str.

(** ** The regular-expression engine *)

Module Re.

(** The constructs of Python's [re] syntax that occur in the pattern of
    the script: an (escaped) literal character, a negated character
    set [[^...]], concatenation, the greedy repetition [+] and a
    numbered capturing group. *)
Inductive regex : Type :=
| Lit (c : ascii)
| NotIn (cs : list ascii)
| Seq (r1 r2 : regex)
| Plus (r : regex)
| Group (n : nat) (r : regex).

(** A run of literal characters followed by [k]. *)
Fixpoint Lits (s : string) (k : regex) : regex :=
  match s with
  | EmptyString => k
  | String c s' => Seq (Lit c) (Lits s' k)
  end.

(** What a successful match attempt yields: the captures of the groups
    that took part and the text left after the match. *)
Abbreviation captures := (gmap nat string).
Definition answer : Type := captures * string.
Definition cont : Type := string -> captures -> option answer.

(** The text consumed between the string [s] and its suffix [s1]. *)
Definition consumed (s s1 : string) : string :=
  Str.take (String.length s - String.length s1) s.

(** The loop of a greedy repetition whose body is matched by [m]: one
    iteration, then as many more as possible, then the continuation
    [k]; when what follows fails the loop gives back its last
    iteration.  As in [sre], an iteration that consumes nothing is not
    repeated, so the loop runs at most [length s] times and a counter
    that starts above [length s] never reaches zero. *)
Fixpoint rep (m : string -> captures -> cont -> option answer)
    (fuel : nat) (s : string) (g : captures) (k : cont) : option answer :=
  match fuel with
  | O => None
  | S fuel' =>
      m s g (fun s1 g1 =>
        let again :=
          if Nat.ltb (String.length s1) (String.length s)
          then rep m fuel' s1 g1 k else None in
        match again with
        | Some a => Some a
        | None => k s1 g1
        end)
  end.

(** [bt r s g k]: match [r] at the start of [s] with the captures [g]
    made so far, then continue with [k] on what is left.  A failure of
    the continuation makes the matcher backtrack. *)
Fixpoint bt (r : regex) (s : string) (g : captures) (k : cont) : option answer :=
  match r with
  | Lit c =>
      match s with
      | String a s' => if Ascii.eqb a c then k s' g else None
      | EmptyString => None
      end
  | NotIn cs =>
      match s with
      | String a s' => if existsb (Ascii.eqb a) cs then None else k s' g
      | EmptyString => None
      end
  | Seq r1 r2 => bt r1 s g (fun s1 g1 => bt r2 s1 g1 k)
  | Group n r1 => bt r1 s g (fun s1 g1 => k s1 (<[n := consumed s s1]> g1))
  | Plus r1 => rep (bt r1) (S (String.length s)) s g k
  end.

(** A match object: the matched text (group 0) and the captures. *)
Record Match : Type := { whole : string; groups : captures }.

(** [m.group(n)]; [None] for a group that took no part in the match. *)
Definition group (m : Match) (n : nat) : option string :=
  match n with
  | O => Some (whole m)
  | S _ => groups m !! n
  end.

(** [pattern.match] at the start of [s]: the match object and the text
    after the match. *)
Definition re_match (r : regex) (s : string) : option (Match * string) :=
  match bt r s ∅ (fun s1 g1 => Some (g1, s1)) with
  | Some (g, rest) => Some ({| whole := consumed s rest; groups := g |}, rest)
  | None => None
  end.

(** [re.subn] with a callable replacement.  The scan goes through the
    text from left to right; [skip] counts the characters still covered
    by the last match, which are neither copied nor searched.  At a free
    position the pattern is tried: on a match the result of the callback
    is appended (a callback returning [None] appends nothing) and the
    span of the match is skipped; otherwise the character is copied.  A
    match of width zero is replaced and the scan moves on by one
    character. *)
Fixpoint subn_go (r : regex) (repl : Match -> option string)
    (skip : nat) (s : string) : string * nat :=
  match s with
  | EmptyString =>
      match skip, re_match r EmptyString with
      | O, Some (m, _) => (default EmptyString (repl m), 1)
      | _, _ => (EmptyString, 0)
      end
  | String c s' =>
      match skip with
      | S k => subn_go r repl k s'
      | O =>
          match re_match r s with
          | Some (m, _) =>
              let piece := default EmptyString (repl m) in
              match String.length (whole m) with
              | O => let '(out, n) := subn_go r repl 0 s' in
                     (piece ++ String c out, S n)
              | S k => let '(out, n) := subn_go r repl k s' in
                       (piece ++ out, S n)
              end
          | None => let '(out, n) := subn_go r repl 0 s' in
                    (String c out, n)
          end
      end
  end.

Definition subn (r : regex) (repl : Match -> option string) (s : string)
  : string * nat := subn_go r repl 0 s.

(** [re.sub] is [re.subn] without the count. *)
Definition sub (r : regex) (repl : Match -> option string) (s : string)
  : string := fst (subn r repl s).

(** [pattern.search(s) is not None]: the pattern matches at some
    position of [s]. *)
Fixpoint search (r : regex) (s : string) : bool :=
  bool_decide (is_Some (re_match r s)) ||
  match s with
  | EmptyString => false
  | String _ s' => search r s'
  end.

End Re.

(** ** The transformation of the script *)

Module RemoveTT.
Import Re.

(** [tt_regex = re.compile(r'\\texttt\{([^\}]+)\}')] *)
Definition tt_regex : regex :=
  Lits "\texttt{" (Seq (Group 1 (Plus (NotIn ["}"%char]))) (Lit "}")).

(** [def tt_replace(m): return m.group(1)] *)
Definition tt_replace (m : Match) : option string := group m 1.

(** [replaced = tt_regex.sub(tt_replace, orig)] *)
Definition remove_tt (orig : string) : string := sub tt_regex tt_replace orig.

(** The number of replacements the substitution makes, the count that
    [tt_regex.subn(tt_replace, orig)] returns next to the text. *)
Definition count_tt (orig : string) : nat := snd (subn tt_regex tt_replace orig).

(** *** What the pattern matches, read off the pattern

    The marker, the capture and the closing brace.  [tt_match] is the
    matcher one writes by hand for the pattern; [re_match_tt] below
    shows that the engine computes it on [tt_regex]. *)

Definition marker : string := "\texttt{".
Definition rbrace : ascii := "}".
Definition lbrace : ascii := "{".
Definition backslash : ascii := "\".

(** [span s]: the longest prefix of [s] without a closing brace, and
    the rest of [s]. *)
Fixpoint span (s : string) : string * string :=
  match s with
  | EmptyString => (EmptyString, EmptyString)
  | String c s' =>
      if Ascii.eqb c rbrace then (EmptyString, s)
      else let '(x, rest) := span s' in (String c x, rest)
  end.

(** A match at the start of [s]: the capture and the text after the
    closing brace. *)
Definition tt_match (s : string) : option (string * string) :=
  match Str.strip marker s with
  | Some body =>
      match span body with
      | (String c x, String _ rest) => Some (String c x, rest)
      | _ => None
      end
  | None => None
  end.

(** *** The words of the description *)

(** An occurrence of the pattern with capture [x]: the marker, a
    non-empty text without closing brace, a closing brace. *)
Definition occurrence (x : string) : string := marker ++ x ++ String rbrace EmptyString.

Definition capture_ok (x : string) : Prop :=
  x <> EmptyString /\ Str.mem rbrace x = false.

(** A marker is open at the end of [s]: some marker of [s] has no
    closing brace after it in [s].  Text appended to such an [s] is
    nested in the braces of that marker. *)
Fixpoint open_marker (s : string) : bool :=
  (Str.starts marker s && negb (Str.mem rbrace s)) ||
  match s with
  | EmptyString => false
  | String _ s' => open_marker s'
  end.

(** The input cut at the matches the substitution replaces, from left
    to right: [Scan s segs tail] when [s] is the concatenation of the
    pieces [gap ++ occurrence x] for [(gap, x)] in [segs], followed by
    [tail]; no match starts inside a gap and [tail] has no match. *)
Inductive Scan : string -> list (string * string) -> string -> Prop :=
| Scan_tail tail :
    search tt_regex tail = false ->
    Scan tail [] tail
| Scan_seg gap x rest segs tail :
    (forall a b, gap = a ++ b -> b <> EmptyString ->
                 re_match tt_regex (b ++ occurrence x ++ rest) = None) ->
    capture_ok x ->
    Scan rest segs tail ->
    Scan (gap ++ occurrence x ++ rest) ((gap, x) :: segs) tail.

(** The input and the output spelled by a cut. *)
Fixpoint source_of (segs : list (string * string)) (tail : string) : string :=
  match segs with
  | [] => tail
  | (gap, x) :: segs' => gap ++ occurrence x ++ source_of segs' tail
  end.

Fixpoint output_of (segs : list (string * string)) (tail : string) : string :=
  match segs with
  | [] => tail
  | (gap, x) :: segs' => gap ++ x ++ output_of segs' tail
  end.

(** Plain text: no backslash and no brace. *)
Definition plain (x : string) : bool :=
  negb (Str.mem backslash x) && negb (Str.mem lbrace x) &&
  negb (Str.mem rbrace x).

(** Every position of [s] at which the pattern matches captures plain
    text. *)
Fixpoint captures_plain (s : string) : bool :=
  match tt_match s with
  | Some (x, _) => plain x
  | None => true
  end &&
  match s with
  | EmptyString => true
  | String _ s' => captures_plain s'
  end.

(** An occurrence begins the text [s], in the words of the description
    alone: the marker, a non-empty text without closing brace, a closing
    brace, and whatever follows. *)
Definition occurs_at (s : string) : Prop :=
  exists x post,
    s = "\texttt{" ++ x ++ "}" ++ post /\ x <> "" /\ Str.mem "}" x = false.

(** The cut of a text at its occurrences, from left to right, in the
    same words: [Cut s segs tail] when [s] is the gaps and occurrences
    of [segs] in their order followed by [tail], no occurrence begins
    inside a gap and none begins anywhere in [tail].  The occurrences of
    the cut are the matches of the text. *)
Inductive Cut : string -> list (string * string) -> string -> Prop :=
| Cut_tail tail :
    (forall a b, tail = a ++ b -> ~ occurs_at b) ->
    Cut tail [] tail
| Cut_seg gap x rest segs tail :
    (forall a b, gap = a ++ b -> b <> "" ->
                 ~ occurs_at (b ++ "\texttt{" ++ x ++ "}" ++ rest)) ->
    x <> "" ->
    Str.mem "}" x = false ->
    Cut rest segs tail ->
    Cut (gap ++ "\texttt{" ++ x ++ "}" ++ rest) ((gap, x) :: segs) tail.

(** [b] is a beginning of the marker, neither empty nor the whole
    marker: one of [\], [\t], ..., [\texttt]. *)
Definition marker_part (b : string) : bool :=
  match b with
  | EmptyString => false
  | String _ _ => Str.starts b marker && Nat.ltb (String.length b) 8
  end.

(** The text [s] ends with such a beginning of the marker. *)
Fixpoint ends_in_marker_part (s : string) : bool :=
  marker_part s ||
  match s with
  | EmptyString => false
  | String _ s' => ends_in_marker_part s'
  end.

(** [Subseq s t]: the text [s] is [t] with some characters left out,
    the others in their order. *)
Inductive Subseq : string -> string -> Prop :=
| Subseq_end : Subseq EmptyString EmptyString
| Subseq_keep c s t : Subseq s t -> Subseq (String c s) (String c t)
| Subseq_drop c s t : Subseq s t -> Subseq s (String c t).

End RemoveTT.

(** ** The script *)

Module Script.
Import RemoveTT.

(** How the system names files.  [resolve p] is the place the path [p]
    leads to; two paths can lead to one place ([a.tex] and [./a.tex],
    a link and its target).  [parent k] is the place of the directory
    that holds the place [k].  The script creates one regular file and
    no directory or link, so neither function changes during a run. *)
Class Namespace : Type := {
  resolve : string -> string;
  parent : string -> string
}.

(** What a place holds: a regular file with its permissions and
    contents, or a directory with its write permission; a place that
    holds nothing is absent from the store. *)
Inductive node : Type :=
| File (readable writable : bool) (data : string)
| Dir (writable : bool).

Inductive errno : Type :=
| ENOENT | EACCES | EISDIR | ENOTDIR | ENOSPC | EBADF.

(** The exceptions the script can die of. *)
Inductive exn : Type :=
| ValueError
| IOError (e : errno) (path : string).

(** The reads and writes of file contents, oldest first, with the
    place read or written. *)
Inductive event : Type :=
| EvRead (place : string)
| EvWrite (place : string) (data : string).

(** The state of a run: the store, by place; how many characters the
    device still takes from a write before it fails (no space left, an
    I/O error); the trace. *)
Record world : Type := {
  files : gmap string node;
  room : nat;
  trace : list event
}.

(** State and exception monad. *)
Definition io (A : Type) : Type := world -> (exn + A) * world.

Definition raise {A} (e : exn) : io A := fun w => (inl e, w).

#[global] Instance io_ret : MRet io := fun A a w => (inr a, w).
#[global] Instance io_bind : MBind io := fun A B f m w =>
  match m w with
  | (inl e, w') => (inl e, w')
  | (inr a, w') => f a w'
  end.

Definition get_node (place : string) : io (option node) :=
  fun w => (inr (files w !! place), w).
Definition put_node (place : string) (n : node) : io unit :=
  fun w => (inr tt, {| files := <[place := n]> (files w);
                       room := room w; trace := trace w |}).
Definition get_room : io nat := fun w => (inr (room w), w).
Definition use_room (n : nat) : io unit :=
  fun w => (inr tt, {| files := files w; room := room w - n; trace := trace w |}).
Definition emit (e : event) : io unit :=
  fun w => (inr tt, {| files := files w; room := room w;
                       trace := trace w ++ [e] |}).

(** [open(path, 'r')]: the handle is the place the path leads to. *)
Definition open_r {ns : Namespace} (path : string) : io string :=
  n ← get_node (resolve path);
  match n with
  | None => raise (IOError ENOENT path)
  | Some (Dir _) => raise (IOError EISDIR path)
  | Some (File false _ _) => raise (IOError EACCES path)
  | Some (File true _ _) => mret (resolve path)
  end.

(** [f.read()]: the whole contents. *)
Definition read (h : string) : io string :=
  n ← get_node h;
  match n with
  | Some (File _ _ data) => emit (EvRead h);; mret data
  | _ => raise (IOError EBADF h)
  end.

(** [open(path, 'w')]: truncates the file the path leads to; where
    there is none, creates it in the directory that holds the place,
    which has to be there and to be writable. *)
Definition open_w {ns : Namespace} (path : string) : io string :=
  n ← get_node (resolve path);
  match n with
  | Some (Dir _) => raise (IOError EISDIR path)
  | Some (File _ false _) => raise (IOError EACCES path)
  | Some (File r true _) =>
      put_node (resolve path) (File r true EmptyString);; mret (resolve path)
  | None =>
      d ← get_node (parent (resolve path));
      match d with
      | None => raise (IOError ENOENT path)
      | Some (File _ _ _) => raise (IOError ENOTDIR path)
      | Some (Dir false) => raise (IOError EACCES path)
      | Some (Dir true) =>
          put_node (resolve path) (File true true EmptyString);;
          mret (resolve path)
      end
  end.

(** [f.write(data)], with the flush of the [with] block: appends at
    the position of the handle, the end of what was written so far.
    When the device takes less than [data], what it takes is in the
    file and the write fails. *)
Definition write (h : string) (data : string) : io unit :=
  n ← get_node h;
  match n with
  | Some (File r w old) =>
      free ← get_room;
      if Nat.leb (String.length data) free then
        put_node h (File r w (old ++ data));;
        use_room (String.length data);;
        emit (EvWrite h data)
      else
        put_node h (File r w (old ++ Str.take free data));;
        use_room free;;
        emit (EvWrite h (Str.take free data));;
        raise (IOError ENOSPC h)
  | _ => raise (IOError EBADF h)
  end.

(** [in_filename, out_filename = sys.argv[1:]] *)
Definition unpack2 (l : list string) : io (string * string) :=
  match l with
  | [a; b] => mret (a, b)
  | _ => raise ValueError
  end.

(** The script, statement by statement. *)
Definition main {ns : Namespace} (argv : list string) : io unit :=
  '(in_filename, out_filename) ← unpack2 (tail argv);
  in_file ← open_r in_filename;
  orig ← read in_file;
  let replaced := remove_tt orig in
  out_file ← open_w out_filename;
  write out_file replaced.

(** A run of the script on a store of files, with a device that takes
    [space] characters. *)
Definition run {ns : Namespace} (argv : list string)
    (fs : gmap string node) (space : nat) : (exn + unit) * world :=
  main argv {| files := fs; room := space; trace := [] |}.

(** The exit status of the interpreter: 0 when the script ends, 1 when
    an exception is not caught. *)
Definition exit_code (r : (exn + unit) * world) : nat :=
  match fst r with
  | inl _ => 1
  | inr _ => 0
  end.

(** How many times a run read, and wrote, the contents of a file. *)
Definition is_read (e : event) : bool :=
  match e with EvRead _ => true | EvWrite _ _ => false end.
Definition is_write (e : event) : bool :=
  match e with EvRead _ => false | EvWrite _ _ => true end.
Definition reads (r : (exn + unit) * world) : nat :=
  length (List.filter is_read (trace (snd r))).
Definition writes (r : (exn + unit) * world) : nat :=
  length (List.filter is_write (trace (snd r))).

(** What [open(path, 'w')] does on a store, in one look: the error
    it raises, or the read permission of the file it opens. *)
Definition writable_at {ns : Namespace} (fs : gmap string node)
    (path : string) : errno + bool :=
  match fs !! resolve path with
  | Some (Dir _) => inl EISDIR
  | Some (File _ false _) => inl EACCES
  | Some (File r true _) => inr r
  | None =>
      match fs !! parent (resolve path) with
      | None => inl ENOENT
      | Some (File _ _ _) => inl ENOTDIR
      | Some (Dir false) => inl EACCES
      | Some (Dir true) => inr true
      end
  end.

(** A namespace to run the script in: one directory, the place [.],
    in which [./p] and [p] name the same place. *)
Fixpoint in_cwd (p : string) : string :=
  match p with
  | String "." (String "/" q) => in_cwd q
  | _ => p
  end.

Definition cwd : Namespace := {| resolve := in_cwd; parent := fun _ => "." |}.

End Script.

(** ** Proof automation *)

Import Re RemoveTT Script.

(** Decides the side condition of [Scan_seg] for a gap that is given
    in full: every way of cutting it is tried. *)
Ltac check_gap :=
  let a := fresh "a" in
  let b := fresh "b" in
  let Hab := fresh "Hab" in
  let Hb := fresh "Hb" in
  intros a b Hab Hb;
  repeat (destruct a as [|? a];
          [ simpl in Hab; subst b;
            first [ exfalso; apply Hb; reflexivity | vm_compute; reflexivity ]
          | simpl in Hab; first [ discriminate | injection Hab as _ Hab ] ]).

(** Runs the monad as far as the store is known. *)
Ltac step_io :=
  unfold run, main, unpack2, open_r, read, open_w, write, get_node, put_node,
    get_room, use_room, emit, raise, mbind, mret, io_bind, io_ret;
  cbn.

(** * Properties *)

(** Let [simpl] compute the concatenation of strings again. *)
#[local] Arguments String.append !_ _ : simpl nomatch.

(** ** Strings *)

Section Strings.

Implicit Types s t u : string.

Lemma append_nil_r s : s ++ "" = s.
Proof. induction s as [|c s IH]; simpl; [reflexivity | now rewrite IH]. Qed.

Lemma append_assoc s t u : (s ++ t) ++ u = s ++ t ++ u.
Proof. induction s as [|c s IH]; simpl; [reflexivity | now rewrite IH]. Qed.

Lemma length_append s t :
  String.length (s ++ t) = String.length s + String.length t.
Proof. induction s as [|c s IH]; simpl; [reflexivity | now rewrite IH]. Qed.

Lemma take_append s t : Str.take (String.length s) (s ++ t) = s.
Proof. induction s as [|c s IH]; simpl; [now destruct t | now rewrite IH]. Qed.

Lemma drop_append s t : Str.drop (String.length s) (s ++ t) = t.
Proof. induction s as [|c s IH]; simpl; [now destruct t | exact IH]. Qed.

Lemma consumed_append s t : consumed (s ++ t) t = s.
Proof.
  unfold consumed. rewrite length_append.
  replace (String.length s + String.length t - String.length t)
    with (String.length s) by lia.
  apply take_append.
Qed.

Lemma mem_append c s t : Str.mem c (s ++ t) = Str.mem c s || Str.mem c t.
Proof.
  induction s as [|a s IH]; simpl; [reflexivity|].
  now rewrite IH, orb_assoc.
Qed.

Lemma strip_Some p s b : Str.strip p s = Some b <-> s = p ++ b.
Proof.
  revert s. induction p as [|a p IH]; intros s; simpl.
  - split; [now intros [= ->] | now intros ->].
  - destruct s as [|c s]; [split; intros; discriminate|].
    destruct (Ascii.eqb_spec c a) as [->|Hne].
    + rewrite IH. split; [now intros -> | now intros [= ->]].
    + split; [discriminate | intros [= ? ?]; contradiction].
Qed.

Lemma strip_append p b : Str.strip p (p ++ b) = Some b.
Proof. now apply strip_Some. Qed.

End Strings.

(** ** The engine on the pattern of the script *)

Section Engine.

Implicit Types s x rest body : string.
Implicit Types g : captures.
Implicit Types k : cont.

(** A run of literals strips the literal text off the input. *)
Lemma bt_Lits p r s g k :
  bt (Lits p r) s g k =
  match Str.strip p s with
  | Some body => bt r body g k
  | None => None
  end.
Proof.
  revert s. induction p as [|a p IH]; intros s; simpl; [reflexivity|].
  destruct s as [|c s]; [reflexivity|].
  destruct (Ascii.eqb c a); [apply IH | reflexivity].
Qed.

(** [span] cuts its argument in two, in front of the first closing
    brace if there is one. *)
Lemma span_append s : fst (span s) ++ snd (span s) = s.
Proof.
  induction s as [|c s IH]; simpl; [reflexivity|].
  destruct (Ascii.eqb c rbrace); [reflexivity|].
  destruct (span s) as [x rest]; simpl in *. now rewrite IH.
Qed.

Lemma span_mem s : Str.mem rbrace (fst (span s)) = false.
Proof.
  induction s as [|c s IH]; simpl; [reflexivity|].
  destruct (Ascii.eqb c rbrace) eqn:E; [reflexivity|].
  destruct (span s) as [x rest]; simpl in *. now rewrite E, IH.
Qed.

Lemma span_rest s :
  snd (span s) = EmptyString \/ exists r, snd (span s) = String rbrace r.
Proof.
  induction s as [|c s IH]; simpl; [now left|].
  destruct (Ascii.eqb_spec c rbrace) as [->|Hne]; [right; now exists s|].
  destruct (span s) as [x rest]; simpl in *. exact IH.
Qed.

(** Conversely the cut of [x ++ "}" ++ r] is [x] when [x] has no
    closing brace. *)
Lemma span_occurrence x r :
  Str.mem rbrace x = false -> span (x ++ String rbrace r) = (x, String rbrace r).
Proof.
  induction x as [|c x IH]; simpl; intros H; [reflexivity|].
  apply orb_false_elim in H as [Hc Hx]. rewrite Hc, (IH Hx). reflexivity.
Qed.

Lemma span_no_rbrace s :
  Str.mem rbrace s = false -> span s = (s, EmptyString).
Proof.
  induction s as [|c s IH]; simpl; intros H; [reflexivity|].
  apply orb_false_elim in H as [Hc Hx]. rewrite Hc, (IH Hx). reflexivity.
Qed.

(** The greedy loop over [[^\}]], followed by something that needs a
    closing brace: the loop takes the whole span, and no shorter
    iteration count can succeed. *)
Lemma rep_not_rbrace fuel s g k :
  String.length s < fuel ->
  (forall c s' g', c <> rbrace -> k (String c s') g' = None) ->
  rep (bt (NotIn [rbrace])) fuel s g k =
  match span s with
  | (String _ _, rest) => k rest g
  | (EmptyString, _) => None
  end.
Proof.
  intros Hfuel Hk. revert s Hfuel.
  induction fuel as [|fuel IH]; intros s Hfuel; [lia|].
  destruct s as [|a s]; [reflexivity|].
  cbn [rep bt existsb span].
  rewrite orb_false_r.
  destruct (Ascii.eqb_spec a rbrace) as [->|Hne]; [reflexivity|].
  assert (Nat.ltb (String.length s) (String.length (String a s)) = true) as ->
    by (apply Nat.ltb_lt; simpl; lia).
  rewrite IH by (simpl in Hfuel; lia).
  destruct s as [|b s]; [reflexivity|].
  cbn [span].
  destruct (Ascii.eqb_spec b rbrace) as [->|Hb]; [reflexivity|].
  destruct (span s) as [x rest].
  destruct (k rest g) as [a'|]; [reflexivity|].
  now apply Hk.
Qed.

(** The hand-written matcher, as an equation between texts. *)
Lemma tt_match_Some s x rest :
  tt_match s = Some (x, rest) <-> s = occurrence x ++ rest /\ capture_ok x.
Proof.
  unfold tt_match, occurrence, capture_ok. split.
  - destruct (Str.strip marker s) as [body|] eqn:Hs; [|discriminate].
    apply strip_Some in Hs as ->.
    pose proof (span_append body) as Happ.
    pose proof (span_mem body) as Hmem.
    pose proof (span_rest body) as Hrest.
    destruct (span body) as [[|c y] [|b r]]; try discriminate.
    intros [= <- <-]. simpl in Happ, Hmem, Hrest.
    destruct Hrest as [|[r' [= -> _]]]; [discriminate|].
    split; [|split; [discriminate | exact Hmem]].
    rewrite !append_assoc. simpl. now rewrite <- Happ.
  - intros [-> [Hne Hmem]].
    rewrite !append_assoc, strip_append. simpl.
    rewrite (span_occurrence x rest Hmem).
    destruct x; [contradiction | reflexivity].
Qed.

Lemma tt_match_occurrence x rest :
  capture_ok x -> tt_match (occurrence x ++ rest) = Some (x, rest).
Proof. intros H. now apply tt_match_Some. Qed.

(** The engine computes [tt_match] on [tt_regex]: group 1 holds the
    capture and the match object the occurrence. *)
Lemma bt_tt s :
  bt tt_regex s ∅ (fun s1 g1 => Some (g1, s1)) =
  match tt_match s with
  | Some (x, rest) => Some ({[1 := x]}, rest)
  | None => None
  end.
Proof.
  unfold tt_regex, tt_match, marker. rewrite bt_Lits.
  destruct (Str.strip _ s) as [body|]; [|reflexivity].
  cbn [bt]. rewrite rep_not_rbrace.
  - pose proof (span_append body) as Happ.
    pose proof (span_rest body) as Hrest.
    destruct (span body) as [[|c y] rest]; [reflexivity|].
    simpl fst in Happ; simpl snd in Happ, Hrest.
    destruct Hrest as [->|[r ->]]; [reflexivity|].
    rewrite Ascii.eqb_refl, <- Happ, consumed_append.
    reflexivity.
  - lia.
  - intros c s' g' Hc. cbn [bt].
    apply Ascii.eqb_neq in Hc. unfold rbrace in Hc. now rewrite Hc.
Qed.

Lemma re_match_tt s :
  re_match tt_regex s =
  match tt_match s with
  | Some (x, rest) =>
      Some ({| whole := occurrence x; groups := {[1 := x]} |}, rest)
  | None => None
  end.
Proof.
  unfold re_match. rewrite bt_tt.
  destruct (tt_match s) as [[x rest]|] eqn:Hm; [|reflexivity].
  apply tt_match_Some in Hm as [-> _].
  now rewrite consumed_append.
Qed.

End Engine.

(** ** The substitution, one step at a time *)

Section Substitution.

Implicit Types s x rest out : string.

(** Skipping the span of a match is dropping it. *)
Lemma subn_go_skip r repl k s :
  k <= String.length s ->
  subn_go r repl k s = subn_go r repl 0 (Str.drop k s).
Proof.
  revert s. induction k as [|k IH]; intros s Hk.
  - now destruct s.
  - destruct s as [|c s]; simpl in Hk; [lia|].
    simpl. apply IH. lia.
Qed.

Lemma subn_tt_nil : subn tt_regex tt_replace EmptyString = (EmptyString, 0).
Proof. reflexivity. Qed.

(** Where the pattern does not match, the character is copied. *)
Lemma subn_tt_copy c s :
  tt_match (String c s) = None ->
  subn tt_regex tt_replace (String c s) =
  (String c (fst (subn tt_regex tt_replace s)), snd (subn tt_regex tt_replace s)).
Proof.
  intros Hm. unfold subn. cbn [subn_go].
  rewrite re_match_tt, Hm.
  now destruct (subn_go tt_regex tt_replace 0 s).
Qed.

(** Where it matches, the capture is appended and the scan resumes
    after the closing brace. *)
Lemma subn_tt_repl s x rest :
  tt_match s = Some (x, rest) ->
  subn tt_regex tt_replace s =
  (x ++ fst (subn tt_regex tt_replace rest),
   S (snd (subn tt_regex tt_replace rest))).
Proof.
  intros Hm. pose proof Hm as Hs. apply tt_match_Some in Hs as [Hs _].
  unfold subn.
  set (occ := "texttt{" ++ x ++ String rbrace EmptyString).
  assert (s = String backslash (occ ++ rest)) as Hs'.
  { rewrite Hs. unfold occurrence, marker, occ. now rewrite !append_assoc. }
  rewrite Hs' at 1. cbn [subn_go]. rewrite <- Hs', re_match_tt, Hm.
  change (occurrence x) with (String backslash occ).
  cbn [whole String.length].
  rewrite subn_go_skip by (rewrite length_append; lia).
  rewrite drop_append.
  unfold tt_replace, group. cbn [groups]. rewrite lookup_singleton_eq.
  cbn [default from_option].
  now destruct (subn_go tt_regex _ 0 rest).
Qed.

Lemma remove_tt_nil : remove_tt EmptyString = EmptyString.
Proof. reflexivity. Qed.

Lemma remove_tt_copy c s :
  tt_match (String c s) = None ->
  remove_tt (String c s) = String c (remove_tt s).
Proof. intros H. unfold remove_tt, sub. now rewrite subn_tt_copy. Qed.

Lemma remove_tt_repl s x rest :
  tt_match s = Some (x, rest) -> remove_tt s = x ++ remove_tt rest.
Proof. intros H. unfold remove_tt, sub. now rewrite (subn_tt_repl s x rest). Qed.

Lemma count_tt_copy c s :
  tt_match (String c s) = None -> count_tt (String c s) = count_tt s.
Proof. intros H. unfold count_tt. now rewrite subn_tt_copy. Qed.

Lemma count_tt_repl s x rest :
  tt_match s = Some (x, rest) -> count_tt s = S (count_tt rest).
Proof. intros H. unfold count_tt. now rewrite (subn_tt_repl s x rest). Qed.

(** A match is at least ten characters wide, so the text after it is
    shorter than the text it starts. *)
Lemma tt_match_length s x rest :
  tt_match s = Some (x, rest) ->
  String.length s = 9 + String.length x + String.length rest /\
  1 <= String.length x.
Proof.
  intros H. apply tt_match_Some in H as [-> [Hne _]].
  unfold occurrence. rewrite !length_append. simpl.
  destruct x; [contradiction | simpl; lia].
Qed.

(** Induction along the scan: the empty text, a copied character, a
    replaced occurrence. *)
Lemma scan_ind (P : string -> Prop) :
  P EmptyString ->
  (forall c s, tt_match (String c s) = None -> P s -> P (String c s)) ->
  (forall s x rest, tt_match s = Some (x, rest) -> P rest -> P s) ->
  forall s, P s.
Proof.
  intros Hnil Hcopy Hrepl s.
  remember (String.length s) as n eqn:Hn.
  revert s Hn. induction n as [n IH] using lt_wf_ind. intros s ->.
  destruct (tt_match s) as [[x rest]|] eqn:Hm.
  - apply (Hrepl s x rest Hm).
    apply (IH (String.length rest)); [|reflexivity].
    apply tt_match_length in Hm. lia.
  - destruct s as [|c s]; [exact Hnil|].
    apply (Hcopy c s Hm). apply (IH (String.length s)); [simpl; lia | reflexivity].
Qed.

End Substitution.

(** ** Matches and their context *)

Section Context.

Implicit Types s t u x rest pre post body : string.

Lemma re_match_None s : re_match tt_regex s = None <-> tt_match s = None.
Proof.
  rewrite re_match_tt.
  destruct (tt_match s) as [[x rest]|]; split; intros H; try discriminate; reflexivity.
Qed.

Lemma search_cons c s :
  search tt_regex (String c s) = false <->
  tt_match (String c s) = None /\ search tt_regex s = false.
Proof.
  cbn [search]. rewrite orb_false_iff, bool_decide_eq_false, <- re_match_None.
  rewrite <- eq_None_not_Some. reflexivity.
Qed.

(** A text without a match is left as it is. *)
Lemma remove_tt_no_match s :
  search tt_regex s = false -> remove_tt s = s /\ count_tt s = 0.
Proof.
  induction s as [|c s IH]; intros H; [split; reflexivity|].
  apply search_cons in H as [Hm Hs]. destruct (IH Hs) as [IH1 IH2].
  rewrite remove_tt_copy, count_tt_copy, IH1, IH2 by assumption. now split.
Qed.

(** A match needs a closing brace and starts with a backslash. *)
Lemma tt_match_no_rbrace s : Str.mem rbrace s = false -> tt_match s = None.
Proof.
  intros H. destruct (tt_match s) as [[x rest]|] eqn:Hm; [|reflexivity].
  apply tt_match_Some in Hm as [-> _]. unfold occurrence in H.
  rewrite !mem_append in H. cbn in H.
  rewrite orb_true_r in H. discriminate.
Qed.

Lemma tt_match_not_backslash c s : c <> backslash -> tt_match (String c s) = None.
Proof.
  intros H. apply Ascii.eqb_neq in H. unfold backslash in H.
  unfold tt_match. simpl. now rewrite H.
Qed.

Lemma search_no_rbrace s : Str.mem rbrace s = false -> search tt_regex s = false.
Proof.
  induction s as [|c s IH]; intros H; [reflexivity|].
  apply search_cons. split; [now apply tt_match_no_rbrace|].
  simpl in H. apply orb_false_elim in H as [_ H]. now apply IH.
Qed.

Lemma search_no_backslash s : Str.mem backslash s = false -> search tt_regex s = false.
Proof.
  induction s as [|c s IH]; intros H; [reflexivity|].
  simpl in H. apply orb_false_elim in H as [Hc H].
  apply search_cons. split; [|now apply IH].
  apply tt_match_not_backslash. now apply Ascii.eqb_neq.
Qed.

(** A match is not disturbed by what is appended to the text. *)
Lemma tt_match_append s t x rest :
  tt_match s = Some (x, rest) -> tt_match (s ++ t) = Some (x, rest ++ t).
Proof.
  intros H. apply tt_match_Some in H as [-> Hx].
  rewrite append_assoc. now apply tt_match_occurrence.
Qed.

(** Two ways of cutting one text: one cut is in front of the other. *)
Lemma append_eq_append s t u v :
  s ++ t = u ++ v ->
  (exists e, u = s ++ e /\ t = e ++ v) \/ (exists e, s = u ++ e /\ v = e ++ t).
Proof.
  revert u. induction s as [|c s IH]; intros u H.
  - left. exists u. now split.
  - destruct u as [|d u].
    + right. exists (String c s). now split.
    + simpl in H. injection H as -> H.
      destruct (IH u H) as [[e [-> ->]]|[e [-> ->]]]; [left | right];
        exists e; now split.
Qed.

Lemma mem_last c s t e :
  s ++ String c EmptyString = t ++ e -> e <> EmptyString -> Str.mem c e = true.
Proof.
  revert s. induction t as [|d t IH]; intros s H He.
  - simpl in H. subst e. rewrite mem_append. simpl.
    now rewrite Ascii.eqb_refl, orb_true_r.
  - destruct s as [|a s]; simpl in H.
    + injection H as _ H. destruct t; [simpl in H; congruence | discriminate].
    + injection H as _ H. now apply (IH s).
Qed.

(** Appended text without a closing brace completes no match. *)
Lemma tt_match_append_None s t :
  Str.mem rbrace t = false -> tt_match s = None -> tt_match (s ++ t) = None.
Proof.
  intros Ht Hs. destruct (tt_match (s ++ t)) as [[x rest]|] eqn:Hm; [|reflexivity].
  apply tt_match_Some in Hm as [Heq Hx].
  destruct (append_eq_append _ _ _ _ Heq) as [[e [Hocc ->]]|[e [-> _]]].
  - destruct e as [|a e].
    + rewrite append_nil_r in Hocc. subst s.
      rewrite <- (append_nil_r (occurrence x)), tt_match_occurrence in Hs by assumption.
      discriminate.
    + unfold occurrence in Hocc. rewrite <- append_assoc in Hocc.
      apply mem_last in Hocc; [|discriminate].
      rewrite mem_append, Hocc in Ht. discriminate.
  - rewrite tt_match_occurrence in Hs by assumption. discriminate.
Qed.

(** Hence appended text without a closing brace is copied. *)
Lemma remove_tt_append_no_rbrace pre t :
  Str.mem rbrace t = false ->
  remove_tt (pre ++ t) = remove_tt pre ++ t /\ count_tt (pre ++ t) = count_tt pre.
Proof.
  intros Ht. induction pre as [|c s Hm IH|s x rest Hm IH] using scan_ind.
  - apply remove_tt_no_match. now apply search_no_rbrace.
  - destruct IH as [IH1 IH2].
    assert (tt_match (String c (s ++ t)) = None) as Hm'
      by now apply (tt_match_append_None (String c s)).
    simpl String.append.
    rewrite !remove_tt_copy, !count_tt_copy, IH1, IH2 by assumption. now split.
  - destruct IH as [IH1 IH2].
    rewrite (remove_tt_repl _ _ _ (tt_match_append _ t _ _ Hm)).
    rewrite (count_tt_repl _ _ _ (tt_match_append _ t _ _ Hm)).
    rewrite (remove_tt_repl _ _ _ Hm), (count_tt_repl _ _ _ Hm), IH1, IH2.
    now rewrite append_assoc.
Qed.

End Context.

(** ** Occurrences that are not nested *)

Section Nesting.

Implicit Types s t u x rest pre post body : string.

Lemma open_marker_cons c s :
  open_marker (String c s) = false <->
  (Str.starts marker (String c s) = true -> Str.mem rbrace (String c s) = true) /\
  open_marker s = false.
Proof.
  cbn [open_marker]. rewrite orb_false_iff, andb_false_iff, negb_false_iff.
  split; intros [H1 H2]; split; try assumption.
  - intros Hs. destruct H1 as [H1|H1]; [congruence | assumption].
  - destruct (Str.starts marker (String c s)); [right; now apply H1 | now left].
Qed.

Lemma open_marker_suffix s t : open_marker (s ++ t) = false -> open_marker t = false.
Proof.
  induction s as [|c s IH]; intros H; [exact H|].
  simpl String.append in H. apply open_marker_cons in H as [_ H]. now apply IH.
Qed.

Lemma strip_append_None p s t :
  Str.strip p s = None -> String.length p <= String.length s ->
  Str.strip p (s ++ t) = None.
Proof.
  revert s. induction p as [|a p IH]; intros s H Hlen; [discriminate|].
  destruct s as [|c s]; simpl in Hlen; [lia|].
  simpl in *. destruct (Ascii.eqb c a); [apply IH; [assumption | lia] | reflexivity].
Qed.

(** The marker has no border: a marker cannot begin in the last
    characters of [s] and end in a marker that follows [s]. *)
Lemma strip_marker_straddle s body :
  s <> EmptyString -> String.length s < 8 ->
  Str.strip marker (s ++ marker ++ body) = None.
Proof.
  intros Hne Hlen.
  do 8 (destruct s as [|? s]; [try contradiction; cbn;
    repeat match goal with
           | |- context [Ascii.eqb ?a ?b] => destruct (Ascii.eqb a b)
           end; reflexivity |]).
  simpl in Hlen. lia.
Qed.

Lemma span_append_rbrace s t :
  Str.mem rbrace s = true -> span (s ++ t) = (fst (span s), snd (span s) ++ t).
Proof.
  induction s as [|c s IH]; intros H; [discriminate|].
  simpl in *. destruct (Ascii.eqb c rbrace); [reflexivity|].
  simpl in H. rewrite (IH H). now destruct (span s).
Qed.

(** Where no marker is open, a following marker turns no failed
    attempt into a match. *)
Lemma tt_match_closed_None c s body :
  tt_match (String c s) = None ->
  open_marker (String c s) = false ->
  tt_match (String c s ++ marker ++ body) = None.
Proof.
  intros Hm Hopen. apply open_marker_cons in Hopen as [Hclosed _].
  unfold tt_match, Str.starts in *.
  destruct (Str.strip marker (String c s)) as [b|] eqn:Hs.
  - specialize (Hclosed eq_refl).
    apply strip_Some in Hs. rewrite Hs in Hclosed |- *.
    rewrite mem_append in Hclosed. change (Str.mem rbrace marker) with false in Hclosed.
    simpl in Hclosed.
    rewrite append_assoc, strip_append, (span_append_rbrace _ _ Hclosed).
    pose proof (span_append b) as Happ. pose proof (span_mem b) as Hmem.
    destruct (span b) as [[|a y] [|d r]]; try reflexivity; try discriminate.
    cbn [fst snd] in Happ, Hmem. rewrite append_nil_r in Happ. congruence.
  - destruct (Nat.le_gt_cases 8 (String.length (String c s))) as [Hlen|Hlen].
    + now rewrite strip_append_None.
    + now rewrite strip_marker_straddle.
Qed.

(** The scan of a text in which no marker is open does not depend on
    a marker that follows it. *)
Lemma remove_tt_closed pre body :
  open_marker pre = false ->
  remove_tt (pre ++ marker ++ body) = remove_tt pre ++ remove_tt (marker ++ body) /\
  count_tt (pre ++ marker ++ body) = count_tt pre + count_tt (marker ++ body).
Proof.
  induction pre as [|c s Hm IH|s x rest Hm IH] using scan_ind; intros Hopen.
  - split; reflexivity.
  - pose proof (tt_match_closed_None c s body Hm Hopen) as Hm'.
    apply open_marker_cons in Hopen as [_ Hopen]. destruct (IH Hopen) as [IH1 IH2].
    change (String c s ++ marker ++ body)
      with (String c (s ++ marker ++ body)) in Hm' |- *.
    rewrite !remove_tt_copy, !count_tt_copy, IH1, IH2 by assumption. now split.
  - pose proof (tt_match_append _ (marker ++ body) _ _ Hm) as Hm'.
    pose proof Hm as Hs. apply tt_match_Some in Hs as [-> _].
    apply open_marker_suffix in Hopen. destruct (IH Hopen) as [IH1 IH2].
    rewrite (remove_tt_repl _ _ _ Hm'), (count_tt_repl _ _ _ Hm').
    rewrite (remove_tt_repl _ _ _ Hm), (count_tt_repl _ _ _ Hm), IH1, IH2.
    now rewrite append_assoc.
Qed.

(** An occurrence at the start of the text is replaced by its capture. *)
Lemma remove_tt_occurrence x post :
  capture_ok x ->
  remove_tt (marker ++ x ++ String rbrace post) = x ++ remove_tt post /\
  count_tt (marker ++ x ++ String rbrace post) = S (count_tt post).
Proof.
  intros Hx. pose proof (tt_match_occurrence x post Hx) as Hm.
  replace (occurrence x ++ post) with (marker ++ x ++ String rbrace post) in Hm
    by (unfold occurrence; now rewrite !append_assoc).
  rewrite (remove_tt_repl _ _ _ Hm), (count_tt_repl _ _ _ Hm). now split.
Qed.


End Nesting.

(** ** The cut of the input at its matches *)

Section Cut.

Implicit Types s t u x rest gap tail : string.

Lemma search_here r s : is_Some (re_match r s) -> search r s = true.
Proof.
  intros H. destruct s; cbn [search]; now rewrite bool_decide_eq_true_2.
Qed.

(** [search] finds what the description calls an occurrence. *)
Lemma search_spec s :
  search tt_regex s = true <->
  exists pre x post, s = pre ++ occurrence x ++ post /\ capture_ok x.
Proof.
  split.
  - induction s as [|c s IH]; [discriminate|].
    intros H. cbn [search] in H. apply orb_true_iff in H as [H|H].
    + apply bool_decide_eq_true in H as [[m rest] H].
      rewrite re_match_tt in H.
      destruct (tt_match (String c s)) as [[x post]|] eqn:Hm; [|discriminate].
      apply tt_match_Some in Hm as [Hs Hx].
      exists EmptyString, x, post. now split.
    + destruct (IH H) as (pre & x & post & -> & Hx).
      exists (String c pre), x, post. now split.
  - intros (pre & x & post & -> & Hx).
    induction pre as [|c pre IH].
    + change (EmptyString ++ occurrence x ++ post) with (occurrence x ++ post).
      apply search_here. rewrite re_match_tt, tt_match_occurrence by assumption.
      eauto.
    + change (String c pre ++ occurrence x ++ post)
        with (String c (pre ++ occurrence x ++ post)).
      cbn [search]. now rewrite IH, orb_true_r.
Qed.

Lemma Scan_source s segs tail : Scan s segs tail -> s = source_of segs tail.
Proof. induction 1 as [|gap x rest segs tail _ _ _ IH]; simpl; congruence. Qed.

(** The scan of the substitution cuts every input at its matches. *)
Lemma scan_cut s :
  exists segs tail,
    Scan s segs tail /\
    remove_tt s = output_of segs tail /\
    count_tt s = length segs.
Proof.
  induction s as [|c s Hm IH|s x rest Hm IH] using scan_ind.
  - exists [], EmptyString. repeat split. now constructor.
  - destruct IH as (segs & tail & HS & Hout & Hcnt).
    rewrite (remove_tt_copy _ _ Hm), (count_tt_copy _ _ Hm), Hout, Hcnt.
    destruct HS as [tail Hnone|gap x rest segs tail Hgap Hx HS].
    + exists [], (String c tail). repeat split.
      constructor. now apply search_cons.
    + exists ((String c gap, x) :: segs), tail. repeat split.
      change (String c (gap ++ occurrence x ++ rest))
        with (String c gap ++ occurrence x ++ rest).
      constructor; try assumption.
      intros a b Hab Hb. destruct a as [|d a]; simpl in Hab.
      * subst b. now apply re_match_None.
      * injection Hab as _ Hab. now apply (Hgap a b).
  - destruct IH as (segs & tail & HS & Hout & Hcnt).
    rewrite (remove_tt_repl _ _ _ Hm), (count_tt_repl _ _ _ Hm), Hout, Hcnt.
    apply tt_match_Some in Hm as [-> Hx].
    exists ((EmptyString, x) :: segs), tail. repeat split.
    change (occurrence x ++ rest) with (EmptyString ++ occurrence x ++ rest).
    constructor; try assumption.
    intros a b Hab Hb. destruct a; [simpl in Hab; congruence | discriminate].
Qed.

(** Each replacement removes the marker and the closing brace. *)
Lemma length_scan s :
  String.length (remove_tt s) + 9 * count_tt s = String.length s.
Proof.
  induction s as [|c s Hm IH|s x rest Hm IH] using scan_ind.
  - reflexivity.
  - rewrite (remove_tt_copy _ _ Hm), (count_tt_copy _ _ Hm). simpl. lia.
  - rewrite (remove_tt_repl _ _ _ Hm), (count_tt_repl _ _ _ Hm), length_append.
    apply tt_match_length in Hm. lia.
Qed.

End Cut.

(** ** More on the cut and on what follows a closing brace *)

Section MoreLemmas.

Implicit Types s t u x y rest gap tail pre post : string.

Lemma occurrence_append x post :
  occurrence x ++ post = "\texttt{" ++ x ++ "}" ++ post.
Proof. unfold occurrence. now rewrite !append_assoc. Qed.

(** A text with no replacement to make has no match. *)
Lemma count_tt_zero s : count_tt s = 0 -> search tt_regex s = false.
Proof.
  intros H. destruct (scan_cut s) as (segs & tail & HS & _ & Hcnt).
  rewrite H in Hcnt. destruct HS as [tail Hnone|]; [exact Hnone | discriminate].
Qed.

(** A gap in which no match starts is copied as far as the occurrence
    behind it, which is replaced. *)
Lemma remove_tt_gap gap x rest :
  (forall a b, gap = a ++ b -> b <> EmptyString ->
               re_match tt_regex (b ++ occurrence x ++ rest) = None) ->
  capture_ok x ->
  remove_tt (gap ++ occurrence x ++ rest) = gap ++ x ++ remove_tt rest /\
  count_tt (gap ++ occurrence x ++ rest) = S (count_tt rest).
Proof.
  intros Hgap Hx. induction gap as [|c gap IH].
  - pose proof (tt_match_occurrence x rest Hx) as Hm.
    change (EmptyString ++ occurrence x ++ rest) with (occurrence x ++ rest).
    rewrite (remove_tt_repl _ _ _ Hm), (count_tt_repl _ _ _ Hm). now split.
  - assert (tt_match (String c (gap ++ occurrence x ++ rest)) = None) as Hm.
    { apply re_match_None. apply (Hgap EmptyString (String c gap)); [reflexivity|discriminate]. }
    change (String c gap ++ occurrence x ++ rest)
      with (String c (gap ++ occurrence x ++ rest)).
    rewrite (remove_tt_copy _ _ Hm), (count_tt_copy _ _ Hm).
    destruct IH as [IH1 IH2].
    { intros a b Hab Hb. apply (Hgap (String c a) b); [now rewrite Hab | assumption]. }
    now rewrite IH1, IH2.
Qed.

Lemma Subseq_refl s : Subseq s s.
Proof. induction s; now constructor. Qed.

Lemma Subseq_append s t u v : Subseq s t -> Subseq u v -> Subseq (s ++ u) (t ++ v).
Proof.
  intros H Huv. induction H as [|c s t _ IH|c s t _ IH]; simpl;
    [assumption | now constructor | now constructor].
Qed.

Lemma Subseq_skip u s t : Subseq s t -> Subseq s (u ++ t).
Proof. intros H. induction u as [|c u IH]; simpl; [assumption | now constructor]. Qed.

Lemma mem_end c s : Str.mem c (s ++ String c EmptyString) = true.
Proof.
  rewrite mem_append. simpl. now rewrite Ascii.eqb_refl, orb_true_r.
Qed.

(** What is left of a text that ends with a closing brace, behind a
    prefix, is empty or ends with a closing brace. *)
Lemma suffix_ends_rbrace u rest a :
  u ++ rest = a ++ String rbrace EmptyString ->
  rest = EmptyString \/ exists a', rest = a' ++ String rbrace EmptyString.
Proof.
  intros H. destruct (append_eq_append _ _ _ _ H) as [[e [-> ->]]|[e [-> He]]].
  - right. now exists e.
  - destruct e as [|c e].
    + right. exists EmptyString. simpl in He. now subst rest.
    + left. simpl in He. injection He as _ He.
      destruct e; [simpl in He; now subst rest | discriminate].
Qed.

(** A closing brace ends every match that began before it: a failed
    attempt in front of a closing brace stays failed whatever follows. *)
Lemma tt_match_rbrace_None a b :
  tt_match (a ++ String rbrace EmptyString) = None ->
  tt_match ((a ++ String rbrace EmptyString) ++ b) = None.
Proof.
  intros Hm.
  destruct (tt_match ((a ++ String rbrace EmptyString) ++ b)) as [[x rest]|] eqn:Hm';
    [|reflexivity].
  apply tt_match_Some in Hm' as [Heq [Hne Hmem]].
  destruct (append_eq_append _ _ _ _ Heq) as [[e [Hocc _]]|[e [Hocc _]]].
  - destruct e as [|c e].
    + rewrite append_nil_r in Hocc. rewrite <- Hocc in Hm.
      rewrite <- (append_nil_r (occurrence x)), tt_match_occurrence in Hm
        by now split.
      discriminate.
    + exfalso.
      assert (Str.mem rbrace (marker ++ x) = false) as Hclean
        by (rewrite mem_append; now rewrite Hmem).
      unfold occurrence in Hocc. rewrite <- append_assoc in Hocc.
      destruct (append_eq_append _ _ _ _ Hocc) as [[e' [He' He'']]|[e' [He' _]]].
      * destruct e' as [|d e'].
        -- rewrite append_nil_r in He'. rewrite <- He', mem_end in Hclean.
           discriminate.
        -- simpl in He''. injection He'' as _ He''.
           destruct e'; discriminate.
      * rewrite He', mem_append, mem_end in Hclean. discriminate.
  - rewrite Hocc, tt_match_occurrence in Hm by now split. discriminate.
Qed.

(** Every replacement takes ten characters or more of the input and
    leaves one or more in the output. *)
Lemma count_tt_bound s :
  10 * count_tt s <= String.length s /\
  count_tt s <= String.length (remove_tt s).
Proof.
  induction s as [|c s Hm IH|s x rest Hm IH] using scan_ind.
  - vm_compute. split; constructor.
  - rewrite (remove_tt_copy _ _ Hm), (count_tt_copy _ _ Hm). simpl. lia.
  - rewrite (remove_tt_repl _ _ _ Hm), (count_tt_repl _ _ _ Hm), length_append.
    apply tt_match_length in Hm. lia.
Qed.

(** A text without a match stays as it is under any number of passes. *)
Lemma iter_no_match n s :
  search tt_regex s = false -> Nat.iter n remove_tt s = s.
Proof.
  intros H. induction n as [|n IH]; [reflexivity|].
  rewrite Nat.iter_succ, IH. now apply remove_tt_no_match.
Qed.

End MoreLemmas.

(** ** The cut in the words of the description *)

Section TextCut.

Implicit Types s t u x rest gap tail : string.

Lemma occurs_at_tt_match s :
  occurs_at s <-> exists x rest, tt_match s = Some (x, rest).
Proof.
  split.
  - intros (x & post & -> & Hne & Hmem). exists x, post.
    rewrite <- occurrence_append. now apply tt_match_occurrence.
  - intros (x & rest & Hm). apply tt_match_Some in Hm as [-> [Hne Hmem]].
    exists x, rest. now rewrite occurrence_append.
Qed.

Lemma not_occurs_at s : ~ occurs_at s <-> tt_match s = None.
Proof.
  rewrite occurs_at_tt_match. split.
  - intros H. destruct (tt_match s) as [[x rest]|]; [|reflexivity].
    destruct H. now exists x, rest.
  - intros H (x & rest & Hm). congruence.
Qed.

Lemma search_false_iff s :
  search tt_regex s = false <-> forall a b, s = a ++ b -> tt_match b = None.
Proof.
  induction s as [|c s IH].
  - split; [|reflexivity]. intros _ a b Hab.
    destruct a; [simpl in Hab; now subst b | discriminate].
  - rewrite search_cons, IH. split.
    + intros [Hm Hs] a b Hab. destruct a as [|d a]; simpl in Hab.
      * now subst b.
      * injection Hab as _ Hab. now apply (Hs a b).
    + intros H. split; [now apply (H EmptyString)|].
      intros a b Hab. apply (H (String c a) b). now rewrite Hab.
Qed.

(** The cut of the engine and the cut of the description are one. *)
Lemma Scan_Cut s segs tail : Scan s segs tail <-> Cut s segs tail.
Proof.
  split.
  - induction 1 as [tail Hnone|gap x rest segs tail Hgap [Hne Hmem] _ IH].
    + constructor. intros a b Hab. apply not_occurs_at.
      now apply (proj1 (search_false_iff tail) Hnone a b).
    + rewrite occurrence_append. constructor; try assumption.
      intros a b Hab Hb. apply not_occurs_at. rewrite <- occurrence_append.
      apply re_match_None. now apply (Hgap a b).
  - induction 1 as [tail Hnone|gap x rest segs tail Hgap Hne Hmem _ IH].
    + constructor. apply search_false_iff. intros a b Hab.
      apply not_occurs_at. now apply (Hnone a b).
    + rewrite <- occurrence_append. constructor; try assumption; [|now split].
      intros a b Hab Hb. apply re_match_None, not_occurs_at.
      rewrite occurrence_append. now apply (Hgap a b).
Qed.

(** A cut fixes what the substitution returns. *)
Lemma scan_output s segs tail :
  Scan s segs tail ->
  remove_tt s = output_of segs tail /\ count_tt s = length segs.
Proof.
  induction 1 as [tail Hnone|gap x rest segs tail Hgap Hx _ [IH1 IH2]].
  - now apply remove_tt_no_match.
  - destruct (remove_tt_gap gap x rest Hgap Hx) as [H1 H2].
    rewrite H1, H2, IH1, IH2. now split.
Qed.

End TextCut.

(** ** What a deleted occurrence can join *)

Section Joins.

Implicit Types s t u w x rest gap tail b : string.

Lemma plain_inv x :
  plain x = true ->
  Str.mem backslash x = false /\ Str.mem lbrace x = false /\
  Str.mem rbrace x = false.
Proof.
  unfold plain. rewrite !andb_true_iff, !negb_true_iff. tauto.
Qed.

Lemma ends_in_marker_part_suffix a b :
  ends_in_marker_part (a ++ b) = false -> marker_part b = false.
Proof.
  induction a as [|c a IH]; intros H.
  - simpl in H. destruct b; cbn [ends_in_marker_part] in H;
      now apply orb_false_elim in H as [H _].
  - change (String c a ++ b) with (String c (a ++ b)) in H.
    cbn [ends_in_marker_part] in H. apply orb_false_elim in H as [_ H].
    now apply IH.
Qed.

(** A text that a prefix [p] can be stripped from, cut in a place that
    lies inside the prefix, begins with a beginning of [p]. *)
Lemma strip_prefix_inv p b w r :
  Str.strip p (b ++ w) = Some r ->
  String.length b <= String.length p ->
  Str.starts b p = true.
Proof.
  unfold Str.starts. revert b. induction p as [|a p IH]; intros b H Hlen.
  - destruct b; [reflexivity | simpl in Hlen; lia].
  - destruct b as [|c b]; [reflexivity|].
    simpl in H, Hlen |- *.
    destruct (Ascii.eqb_spec c a) as [->|Hne]; [|discriminate].
    rewrite Ascii.eqb_refl. apply (IH b H). lia.
Qed.

(** In front of an occurrence, a place where no match starts and
    which does not begin a piece of the marker starts no match whatever
    the text behind it is changed into. *)
Lemma tt_match_gap_any b x rest w :
  capture_ok x ->
  tt_match (b ++ occurrence x ++ rest) = None ->
  marker_part b = false ->
  b <> EmptyString ->
  tt_match (b ++ w) = None.
Proof.
  intros [Hne Hmem] Hin Hpart Hb.
  destruct (Str.strip marker b) as [u|] eqn:Hs.
  - apply strip_Some in Hs. subst b.
    destruct (Str.mem rbrace u) eqn:Hu.
    + rewrite append_assoc in Hin |- *. unfold tt_match in Hin |- *.
      rewrite strip_append in Hin |- *.
      rewrite (span_append_rbrace u _ Hu) in Hin.
      rewrite (span_append_rbrace u _ Hu).
      pose proof (span_append u) as Happ. pose proof (span_mem u) as Hm.
      pose proof (span_rest u) as Hrest.
      destruct (span u) as [y r]. cbn [fst snd] in *.
      destruct Hrest as [->|[r' ->]].
      * rewrite append_nil_r in Happ. congruence.
      * destruct y; [reflexivity | discriminate].
    + exfalso.
      assert (capture_ok (u ++ marker ++ x)) as Hok.
      { split; [destruct u; discriminate|].
        rewrite !mem_append, Hu, Hmem. reflexivity. }
      pose proof (tt_match_occurrence _ rest Hok) as Hsome.
      replace (occurrence (u ++ marker ++ x) ++ rest)
        with ((marker ++ u) ++ occurrence x ++ rest) in Hsome; [congruence|].
      unfold occurrence. repeat rewrite append_assoc. reflexivity.
  - unfold tt_match.
    destruct (Str.strip marker (b ++ w)) as [r|] eqn:Hs'; [|reflexivity].
    exfalso.
    destruct (Nat.le_gt_cases 8 (String.length b)) as [Hlen|Hlen].
    + rewrite (strip_append_None marker b w Hs Hlen) in Hs'. discriminate.
    + assert (Str.starts b marker = true) as Hst
        by (apply (strip_prefix_inv marker b w r Hs'); simpl; lia).
      destruct b as [|c b]; [contradiction|].
      cbn [marker_part] in Hpart. rewrite Hst in Hpart.
      apply Nat.ltb_lt in Hlen. rewrite Hlen in Hpart. discriminate.
Qed.

Lemma search_append_false u w :
  (forall a b, u = a ++ b -> b <> EmptyString -> tt_match (b ++ w) = None) ->
  search tt_regex w = false ->
  search tt_regex (u ++ w) = false.
Proof.
  intros Hu Hw. induction u as [|c u IH]; [exact Hw|].
  change (String c u ++ w) with (String c (u ++ w)).
  apply search_cons. split.
  - apply (Hu EmptyString (String c u)); [reflexivity | discriminate].
  - apply IH. intros a b Hab Hb. apply (Hu (String c a) b); [now rewrite Hab | assumption].
Qed.

Lemma mem_suffix c a b : Str.mem c (a ++ b) = false -> Str.mem c b = false.
Proof. rewrite mem_append. intros H. now apply orb_false_elim in H as [_ H]. Qed.

(** The output of a cut whose captures are plain and whose gaps end
    with no beginning of the marker has no match. *)
Lemma Scan_output_clean s segs tail :
  Scan s segs tail ->
  Forall (fun seg => plain (snd seg) = true /\
                     ends_in_marker_part (fst seg) = false) segs ->
  search tt_regex (output_of segs tail) = false.
Proof.
  induction 1 as [tail Hnone|gap x rest segs tail Hgap Hx _ IH]; intros Hall.
  - exact Hnone.
  - apply Forall_cons in Hall as [[Hplain Hend] Hall]. cbn [fst snd] in *.
    specialize (IH Hall). cbn [output_of].
    apply plain_inv in Hplain as (Hback & _ & _).
    apply search_append_false; [|apply search_append_false; [|exact IH]].
    + intros a b Hab Hb.
      apply (tt_match_gap_any b x rest); try assumption.
      * apply re_match_None. now apply (Hgap a b).
      * apply (ends_in_marker_part_suffix a). now rewrite <- Hab.
    + intros a b Hab Hb. rewrite Hab in Hback. apply mem_suffix in Hback.
      destruct b as [|c b]; [contradiction|].
      simpl in Hback. apply orb_false_elim in Hback as [Hc _].
      apply (tt_match_not_backslash c). now apply Ascii.eqb_neq.
Qed.

End Joins.

(** * The claims about the transformation *)

(** C1 (as amended).  A well-formed occurrence [\texttt{X}] with a
    non-empty capture [X] without closing brace, which is not nested in
    the braces of an earlier marker, is replaced by [X]: the output is
    the output for the text in front of it, then [X], then the output
    for the text behind it.  When neither of these two texts contains a
    match, every character outside the occurrence is unchanged.  (An
    opening brace in [X] does no harm.) *)
Theorem texttt_occurrence_replaced (pre X post : string) :
  X <> "" ->
  Str.mem "}" X = false ->
  open_marker pre = false ->
  remove_tt (pre ++ "\texttt{" ++ X ++ "}" ++ post)
    = remove_tt pre ++ X ++ remove_tt post /\
  (search tt_regex pre = false -> search tt_regex post = false ->
   remove_tt (pre ++ "\texttt{" ++ X ++ "}" ++ post) = pre ++ X ++ post).
Proof.
  intros Hne Hmem Hopen.
  assert (remove_tt (pre ++ "\texttt{" ++ X ++ "}" ++ post)
          = remove_tt pre ++ X ++ remove_tt post) as Heq.
  { change (pre ++ "\texttt{" ++ X ++ "}" ++ post)
      with (pre ++ marker ++ X ++ String rbrace post).
    rewrite (proj1 (remove_tt_closed pre _ Hopen)).
    now rewrite (proj1 (remove_tt_occurrence X post (conj Hne Hmem))). }
  split; [exact Heq|].
  intros Hpre Hpost. rewrite Heq.
  now rewrite (proj1 (remove_tt_no_match pre Hpre)),
              (proj1 (remove_tt_no_match post Hpost)).
Qed.

(** Scenario 1 of the description, by C1. *)
Lemma texttt_occurrence_replaced_witness :
  remove_tt "Use \texttt{foo} here." = "Use foo here.".
Proof.
  refine (proj2 (texttt_occurrence_replaced "Use " "foo" " here." _ _ _) _ _);
    [discriminate | reflexivity | reflexivity | reflexivity | reflexivity].
Defined.

(** C1 as it is written fails on the empty capture: the occurrence
    [\texttt{}] stands alone in the text, its capture has no brace, and
    it is not replaced by the empty text. *)
Lemma empty_capture_not_replaced :
  Str.mem "}" "" = false /\ Str.mem "{" "" = false /\
  open_marker "" = false /\
  search tt_regex "" = false /\
  remove_tt ("" ++ "\texttt{" ++ "" ++ "}" ++ "") = "\texttt{}" /\
  remove_tt ("" ++ "\texttt{" ++ "" ++ "}" ++ "") <> "" ++ "" ++ "".
Proof. repeat split; try reflexivity. discriminate. Qed.

(** C2.  On the nested input the pattern matches at the first marker
    and stops at the first closing brace: the capture still holds the
    inner marker, one replacement is made, and [c}] is copied. *)
Theorem nested_scenario :
  tt_replace <$> (fst <$> re_match tt_regex "\texttt{a\texttt{b}c}")
    = Some (Some "a\texttt{b") /\
  whole <$> (fst <$> re_match tt_regex "\texttt{a\texttt{b}c}")
    = Some "\texttt{a\texttt{b}" /\
  snd <$> re_match tt_regex "\texttt{a\texttt{b}c}" = Some "c}" /\
  subn tt_regex tt_replace "\texttt{a\texttt{b}c}" = ("a\texttt{b" ++ "c}", 1) /\
  remove_tt "\texttt{a\texttt{b}c}" = "a\texttt{bc}".
Proof. repeat split; vm_compute; reflexivity. Qed.

(** C3.  A text in which the pattern matches nowhere is its own
    output. *)
Theorem identity_without_match (orig : string) :
  search tt_regex orig = false -> remove_tt orig = orig.
Proof. intros H. now apply remove_tt_no_match. Qed.

(** Scenario 3 of the description, by C3. *)
Lemma identity_without_match_witness :
  search tt_regex "No markup here." = false /\
  remove_tt "No markup here." = "No markup here.".
Proof.
  split; [reflexivity|].
  apply (identity_without_match "No markup here."). reflexivity.
Defined.

(** C4 (as amended).  When the captures of the occurrences that are
    replaced are plain and no such occurrence stands right behind a
    beginning of the marker ([\], [\t], ..., [\texttt]), the output has
    no match and a second run of the transformation on it changes
    nothing. *)
Theorem second_pass_changes_nothing (orig : string)
    (segs : list (string * string)) (tail : string) :
  Scan orig segs tail ->
  Forall (fun seg => plain (snd seg) = true /\
                     ends_in_marker_part (fst seg) = false) segs ->
  search tt_regex (remove_tt orig) = false /\
  remove_tt (remove_tt orig) = remove_tt orig.
Proof.
  intros HS Hall.
  assert (search tt_regex (remove_tt orig) = false) as H.
  { rewrite (proj1 (scan_output _ _ _ HS)). now apply (Scan_output_clean orig). }
  split; [exact H | now apply remove_tt_no_match].
Qed.

(** A text with other markup, whose backslash is no part of the
    marker of the occurrence behind it. *)
Lemma second_pass_changes_nothing_witness :
  search tt_regex (remove_tt "\emph{x} \texttt{foo}") = false /\
  remove_tt (remove_tt "\emph{x} \texttt{foo}") = remove_tt "\emph{x} \texttt{foo}".
Proof.
  apply (second_pass_changes_nothing "\emph{x} \texttt{foo}" [("\emph{x} ", "foo")] "").
  - apply (Scan_seg "\emph{x} " "foo" "");
      [check_gap | split; [discriminate | reflexivity] |].
    apply Scan_tail. reflexivity.
  - repeat constructor.
Defined.

(** C4 as it is written fails: the only occurrence of the text below
    captures the plain text [t], and the first run joins what stands
    around the occurrence into new markup, which a second run
    removes. *)
Lemma plain_capture_not_idempotent :
  captures_plain "\tex\texttt{t}tt{a}" = true /\
  remove_tt "\tex\texttt{t}tt{a}" = "\texttt{a}" /\
  remove_tt (remove_tt "\tex\texttt{t}tt{a}") = "a" /\
  remove_tt (remove_tt "\tex\texttt{t}tt{a}") <> remove_tt "\tex\texttt{t}tt{a}".
Proof. repeat split; try reflexivity. vm_compute. discriminate. Qed.

(** C5.  Every input is cut by its matches into gaps and occurrences,
    from left to right and without overlap; the cut leaves no match
    behind (none starts inside a gap, none is in the tail); the output
    is the input with each occurrence of the cut replaced by its
    capture, and the number of replacements is the number of
    occurrences of the cut.  Scenario 2 of the description is cut at
    its two occurrences. *)
Theorem matches_left_to_right :
  (forall orig : string, exists segs tail,
      Scan orig segs tail /\
      orig = source_of segs tail /\
      remove_tt orig = output_of segs tail /\
      count_tt orig = length segs) /\
  Scan "A \texttt{bar} and \texttt{baz}." [("A ", "bar"); (" and ", "baz")] "." /\
  subn tt_regex tt_replace "A \texttt{bar} and \texttt{baz}." = ("A bar and baz.", 2) /\
  remove_tt "A \texttt{bar} and \texttt{baz}." = "A bar and baz.".
Proof.
  split; [|split; [|split; reflexivity]].
  - intros orig. destruct (scan_cut orig) as (segs & tail & HS & Hout & Hcnt).
    exists segs, tail. repeat split; try assumption. now apply Scan_source.
  - apply (Scan_seg "A " "bar" " and \texttt{baz}.");
      [check_gap | split; [discriminate | reflexivity] |].
    apply (Scan_seg " and " "baz" ".");
      [check_gap | split; [discriminate | reflexivity] |].
    apply Scan_tail. reflexivity.
Qed.

(** C6.  A marker with no closing brace between it and the end of the
    text is copied with everything behind it: the output is the output
    for the text in front of the marker followed by the marker and the
    rest, the replacements are those of the text in front, and no match
    starts at the marker or behind it. *)
Theorem unclosed_marker_copied (pre post : string) :
  Str.mem "}" post = false ->
  remove_tt (pre ++ "\texttt{" ++ post) = remove_tt pre ++ "\texttt{" ++ post /\
  count_tt (pre ++ "\texttt{" ++ post) = count_tt pre /\
  (forall a b, "\texttt{" ++ post = a ++ b -> re_match tt_regex b = None).
Proof.
  intros Hpost.
  assert (Str.mem rbrace ("\texttt{" ++ post) = false) as Hm.
  { rewrite mem_append. exact Hpost. }
  destruct (remove_tt_append_no_rbrace pre _ Hm) as [H1 H2].
  repeat split; try assumption.
  intros a b Hab. apply re_match_None, tt_match_no_rbrace.
  rewrite Hab, mem_append in Hm. now apply orb_false_elim in Hm as [_ Hm].
Qed.

Lemma unclosed_marker_copied_witness :
  remove_tt ("\texttt{a} and " ++ "\texttt{" ++ "b") = "a and \texttt{b".
Proof.
  refine (proj1 (unclosed_marker_copied "\texttt{a} and " "b" _)).
  reflexivity.
Defined.




(** C10.  The matches of a text are the occurrences of its cut, which
    every text has.  The number of replacements is their number, the
    output is shorter than the input by nine characters for each of
    them, and so never longer. *)
Theorem length_remove_tt (orig : string) :
  (exists segs tail, Cut orig segs tail) /\
  (forall segs tail,
      Cut orig segs tail ->
      count_tt orig = length segs /\
      String.length (remove_tt orig) + 9 * length segs = String.length orig) /\
  String.length (remove_tt orig) + 9 * count_tt orig = String.length orig /\
  String.length (remove_tt orig) <= String.length orig.
Proof.
  pose proof (length_scan orig) as Hlen.
  split; [|split; [|split; [assumption | lia]]].
  - destruct (scan_cut orig) as (segs & tail & HS & _).
    exists segs, tail. now apply Scan_Cut.
  - intros segs tail HC. apply Scan_Cut, scan_output in HC as [_ Hcnt].
    split; [assumption | now rewrite <- Hcnt].
Qed.

(** Scenario 1 of the description has one match and loses nine
    characters. *)
Lemma length_remove_tt_witness :
  count_tt "Use \texttt{foo} here." = 1 /\
  String.length (remove_tt "Use \texttt{foo} here.") + 9 * 1
    = String.length "Use \texttt{foo} here.".
Proof.
  apply (proj1 (proj2 (length_remove_tt "Use \texttt{foo} here."))
           [("Use ", "foo")] " here.").
  apply Scan_Cut.
  apply (Scan_seg "Use " "foo" " here.");
    [check_gap | split; [discriminate | reflexivity] |].
  apply Scan_tail. reflexivity.
Defined.

(** * Further properties of the transformation *)

(** X1.  What a match of the pattern at the start of a text looks
    like: the matched text is the marker, a non-empty capture without
    closing brace and a closing brace (ten characters or more); the
    callback returns the capture; the text is the matched text followed
    by what the match leaves. *)
Theorem tt_regex_match_shape (s rest : string) (m : Match) :
  re_match tt_regex s = Some (m, rest) ->
  exists x,
    tt_replace m = Some x /\
    x <> "" /\ Str.mem "}" x = false /\
    whole m = "\texttt{" ++ x ++ "}" /\
    s = whole m ++ rest /\
    String.length (whole m) = 9 + String.length x /\
    10 <= String.length (whole m).
Proof.
  rewrite re_match_tt.
  destruct (tt_match s) as [[x r]|] eqn:Hm; [|discriminate].
  intros [= <- <-]. pose proof (tt_match_length _ _ _ Hm) as [Hlen Hx].
  apply tt_match_Some in Hm as [-> [Hne Hmem]].
  assert (String.length (occurrence x) = 9 + String.length x) as Hw
    by (unfold occurrence; rewrite !length_append; simpl; lia).
  exists x. cbn [whole]. split_and!; try assumption; try reflexivity. lia.
Qed.

Lemma tt_regex_match_shape_witness :
  exists x,
    tt_replace {| whole := "\texttt{foo}"; groups := {[1 := "foo"]} |} = Some x /\
    x <> "" /\ Str.mem "}" x = false /\
    "\texttt{foo}" = "\texttt{" ++ x ++ "}" /\
    "\texttt{foo} here." = "\texttt{foo}" ++ " here." /\
    String.length "\texttt{foo}" = 9 + String.length x /\
    10 <= String.length "\texttt{foo}".
Proof.
  exact (tt_regex_match_shape "\texttt{foo} here." " here."
           {| whole := "\texttt{foo}"; groups := {[1 := "foo"]} |} eq_refl).
Defined.

(** X2.  Conversely the pattern matches at every occurrence, whatever
    follows the closing brace: the greedy capture ends at the first
    closing brace, group 1 is the capture and group 0 the occurrence. *)
Theorem tt_regex_matches_occurrence (x rest : string) :
  x <> "" ->
  Str.mem "}" x = false ->
  re_match tt_regex ("\texttt{" ++ x ++ "}" ++ rest)
    = Some ({| whole := "\texttt{" ++ x ++ "}"; groups := {[1 := x]} |}, rest).
Proof.
  intros Hne Hmem. rewrite <- occurrence_append, re_match_tt.
  now rewrite tt_match_occurrence by now split.
Qed.

Lemma tt_regex_matches_occurrence_witness :
  re_match tt_regex ("\texttt{" ++ "a{b" ++ "}" ++ "c}")
    = Some ({| whole := "\texttt{" ++ "a{b" ++ "}"; groups := {[1 := "a{b"]} |}, "c}").
Proof.
  apply (tt_regex_matches_occurrence "a{b" "c}"); [discriminate | reflexivity].
Defined.

(** X3.  The substitution leaves a text as it is exactly when the text
    contains no occurrence: no marker followed by a non-empty text
    without closing brace and a closing brace. *)
Theorem identity_iff_no_occurrence (orig : string) :
  remove_tt orig = orig <->
  ~ exists pre x post,
      orig = pre ++ "\texttt{" ++ x ++ "}" ++ post /\
      x <> "" /\ Str.mem "}" x = false.
Proof.
  split.
  - intros Hid (pre & x & post & Heq & Hx).
    assert (count_tt orig = 0) as Hcnt.
    { pose proof (length_scan orig) as Hlen. rewrite Hid in Hlen. lia. }
    apply count_tt_zero in Hcnt.
    assert (search tt_regex orig = true) as Hs; [|congruence].
    apply search_spec. exists pre, x, post.
    now rewrite occurrence_append.
  - intros Hno. apply remove_tt_no_match.
    destruct (search tt_regex orig) eqn:Hs; [|reflexivity].
    exfalso. apply Hno. apply search_spec in Hs as (pre & x & post & Heq & Hx).
    exists pre, x, post. now rewrite <- occurrence_append.
Qed.

Lemma identity_iff_no_occurrence_witness :
  ~ exists pre x post,
      "\texttt{} and \texttt{open" = pre ++ "\texttt{" ++ x ++ "}" ++ post /\
      x <> "" /\ Str.mem "}" x = false.
Proof.
  exact (proj1 (identity_iff_no_occurrence "\texttt{} and \texttt{open") eq_refl).
Defined.

(** X4.  The cut determines the result: whenever a text is cut into
    gaps and occurrences so that no match starts in a gap and none is
    left in the tail, the substitution returns the gaps, the captures
    and the tail in their order, and counts one replacement for each
    occurrence of the cut. *)
Theorem cut_determines_output (orig : string)
    (segs : list (string * string)) (tail : string) :
  Scan orig segs tail ->
  subn tt_regex tt_replace orig = (output_of segs tail, length segs).
Proof.
  intros H.
  enough (remove_tt orig = output_of segs tail /\ count_tt orig = length segs)
    as [H1 H2].
  { unfold remove_tt, sub, count_tt in H1, H2.
    destruct (subn tt_regex tt_replace orig) as [out n]. simpl in *. congruence. }
  induction H as [tail Hnone|gap x rest segs tail Hgap Hx _ [IH1 IH2]].
  - now apply remove_tt_no_match.
  - destruct (remove_tt_gap gap x rest Hgap Hx) as [H1 H2].
    rewrite H1, H2, IH1, IH2. now split.
Qed.

Lemma cut_determines_output_witness :
  subn tt_regex tt_replace "Use \texttt{foo} here."
    = (output_of [("Use ", "foo")] " here.", 1).
Proof.
  apply (cut_determines_output "Use \texttt{foo} here." [("Use ", "foo")] " here.").
  apply (Scan_seg "Use " "foo" " here.");
    [check_gap | split; [discriminate | reflexivity] |].
  apply Scan_tail. reflexivity.
Defined.

(** X5.  The substitution only deletes: the output is the input with
    some characters left out, nothing added and nothing moved. *)
Theorem output_is_subsequence (orig : string) : Subseq (remove_tt orig) orig.
Proof.
  induction orig as [|c s Hm IH|s x rest Hm IH] using scan_ind.
  - constructor.
  - rewrite (remove_tt_copy _ _ Hm). now constructor.
  - rewrite (remove_tt_repl _ _ _ Hm).
    apply tt_match_Some in Hm as [-> _].
    unfold occurrence. rewrite !append_assoc.
    apply Subseq_skip, Subseq_append; [apply Subseq_refl|].
    simpl. now constructor.
Qed.

(** X6.  Every replacement takes an occurrence of ten characters or
    more out of the input and leaves a non-empty capture in the
    output. *)
Theorem replacements_bounded (orig : string) :
  10 * count_tt orig <= String.length orig /\
  count_tt orig <= String.length (remove_tt orig).
Proof. exact (count_tt_bound orig). Qed.

(** X7.  A closing brace ends every match that began before it, so a
    text can be cut behind any closing brace and its two parts
    transformed on their own. *)
Theorem split_after_rbrace (a b : string) :
  remove_tt (a ++ "}" ++ b) = remove_tt (a ++ "}") ++ remove_tt b /\
  count_tt (a ++ "}" ++ b) = count_tt (a ++ "}") + count_tt b.
Proof.
  enough (forall u,
             u = EmptyString \/ (exists a', u = a' ++ String rbrace EmptyString) ->
             remove_tt (u ++ b) = remove_tt u ++ remove_tt b /\
             count_tt (u ++ b) = count_tt u + count_tt b) as H.
  { change (a ++ "}" ++ b) with (a ++ String rbrace EmptyString ++ b).
    rewrite <- append_assoc. apply H. right. now exists a. }
  induction u as [|c s Hm IH|s x rest Hm IH] using scan_ind; intros Hu.
  - split; reflexivity.
  - destruct Hu as [Hu|[a' Hu]]; [discriminate|].
    assert (tt_match (String c s ++ b) = None) as Hm'.
    { rewrite Hu in Hm |- *. now apply tt_match_rbrace_None. }
    destruct IH as [IH1 IH2].
    { apply (suffix_ends_rbrace (String c EmptyString) s a'). exact Hu. }
    change (String c s ++ b) with (String c (s ++ b)) in Hm' |- *.
    rewrite !remove_tt_copy, !count_tt_copy, IH1, IH2 by assumption. now split.
  - pose proof (tt_match_append _ b _ _ Hm) as Hm'.
    destruct IH as [IH1 IH2].
    { destruct Hu as [Hu|[a' Hu]].
      - apply tt_match_length in Hm. rewrite Hu in Hm. simpl in Hm. lia.
      - pose proof Hm as Hs. apply tt_match_Some in Hs as [Hs _].
        rewrite Hs in Hu. now apply (suffix_ends_rbrace _ _ _ Hu). }
    rewrite (remove_tt_repl _ _ _ Hm'), (count_tt_repl _ _ _ Hm').
    rewrite (remove_tt_repl _ _ _ Hm), (count_tt_repl _ _ _ Hm), IH1, IH2.
    now rewrite append_assoc.
Qed.

(** X8.  A marker inside the braces of another: the outer capture runs
    through the inner marker up to the first closing brace, so the
    inner marker is copied into the output and the scan goes on behind
    that closing brace. *)
Theorem nested_marker_survives (x y rest : string) :
  Str.mem "}" x = false ->
  Str.mem "}" y = false ->
  remove_tt ("\texttt{" ++ x ++ "\texttt{" ++ y ++ "}" ++ rest)
    = x ++ "\texttt{" ++ y ++ remove_tt rest.
Proof.
  intros Hx Hy.
  assert (capture_ok (x ++ marker ++ y)) as Hok.
  { unfold capture_ok, rbrace. split.
    - destruct x; discriminate.
    - rewrite !mem_append, Hx, Hy. reflexivity. }
  pose proof (proj1 (remove_tt_occurrence _ rest Hok)) as H.
  rewrite !append_assoc in H. exact H.
Qed.

Lemma nested_marker_survives_witness :
  remove_tt ("\texttt{" ++ "a" ++ "\texttt{" ++ "b" ++ "}" ++ "c}")
    = "a" ++ "\texttt{" ++ "b" ++ remove_tt "c}".
Proof.
  apply (nested_marker_survives "a" "b" "c}"); reflexivity.
Defined.

(** X9.  Running the substitution again and again comes to rest: after
    [n] passes over a text of fewer than [9 * n + 10] characters no
    match is left, and a further pass changes nothing. *)
Theorem passes_come_to_rest (n : nat) (orig : string) :
  String.length orig < 9 * n + 10 ->
  search tt_regex (Nat.iter n remove_tt orig) = false /\
  remove_tt (Nat.iter n remove_tt orig) = Nat.iter n remove_tt orig.
Proof.
  intros Hlen.
  enough (search tt_regex (Nat.iter n remove_tt orig) = false) as H
    by (split; [exact H | now apply remove_tt_no_match]).
  revert orig Hlen. induction n as [|n IH]; intros orig Hlen.
  - simpl. apply count_tt_zero.
    pose proof (count_tt_bound orig). lia.
  - destruct (count_tt orig) as [|k] eqn:Hcnt.
    + apply count_tt_zero in Hcnt. now rewrite iter_no_match.
    + rewrite Nat.iter_succ_r. apply IH.
      pose proof (length_scan orig) as Hscan. lia.
Qed.

Lemma passes_come_to_rest_witness :
  search tt_regex (Nat.iter 2 remove_tt "\tex\texttt{t}tt{a}") = false /\
  remove_tt (Nat.iter 2 remove_tt "\tex\texttt{t}tt{a}")
    = Nat.iter 2 remove_tt "\tex\texttt{t}tt{a}".
Proof.
  apply (passes_come_to_rest 2 "\tex\texttt{t}tt{a}"). simpl. lia.
Defined.

(** * The runs of the script *)

Section Runs.

Context {ns : Namespace}.
Implicit Types fs : gmap string node.
Implicit Types prog inp out : string.

(** The script needs exactly two arguments after its own name. *)
Lemma run_bad_argv argv fs sp :
  (forall prog inp out, argv <> [prog; inp; out]) ->
  run argv fs sp = (inl ValueError, {| files := fs; room := sp; trace := [] |}).
Proof.
  intros H.
  destruct argv as [|prog [|inp [|out [|more argv]]]]; try reflexivity.
  now destruct (H prog inp out).
Qed.

(** The input cannot be opened. *)
Lemma run_bad_input prog inp out fs sp e :
  match fs !! resolve inp with
  | None => e = ENOENT
  | Some (Dir _) => e = EISDIR
  | Some (File false _ _) => e = EACCES
  | Some (File true _ _) => False
  end ->
  run [prog; inp; out] fs sp =
  (inl (IOError e inp), {| files := fs; room := sp; trace := [] |}).
Proof.
  intros H. step_io.
  destruct (fs !! resolve inp) as [[[] wr data|dw]|]; step_io;
    try contradiction; now subst e.
Qed.

(** The input is read and the output cannot be opened. *)
Lemma run_bad_output prog inp out fs sp wr data e :
  fs !! resolve inp = Some (File true wr data) ->
  writable_at fs out = inl e ->
  run [prog; inp; out] fs sp =
  (inl (IOError e out),
   {| files := fs; room := sp; trace := [EvRead (resolve inp)] |}).
Proof.
  intros Hin H. unfold writable_at in H. step_io. repeat (rewrite Hin; step_io).
  destruct (fs !! resolve out) as [[rd [] old|dw]|]; step_io;
    try discriminate; try (now injection H as <-).
  destruct (fs !! parent (resolve out)) as [[rd' wr' old'|[]]|]; step_io;
    try discriminate; now injection H as <-.
Qed.

(** The input is read, the output is created or truncated, and the
    device takes the whole output. *)
Lemma run_ok prog inp out fs sp wr data mode :
  fs !! resolve inp = Some (File true wr data) ->
  writable_at fs out = inr mode ->
  String.length (remove_tt data) <= sp ->
  run [prog; inp; out] fs sp =
  (inr tt,
   {| files := <[resolve out := File mode true (remove_tt data)]> fs;
      room := sp - String.length (remove_tt data);
      trace := [EvRead (resolve inp); EvWrite (resolve out) (remove_tt data)] |}).
Proof.
  intros Hin H Hsp. apply Nat.leb_le in Hsp.
  unfold writable_at in H. step_io. repeat (rewrite Hin; step_io).
  destruct (fs !! resolve out) as [[rd [] old|dw]|]; step_io; try discriminate.
  - injection H as <-. rewrite lookup_insert_eq. step_io. rewrite Hsp. step_io.
    now rewrite insert_insert_eq.
  - destruct (fs !! parent (resolve out)) as [[rd' wr' old'|[]]|]; step_io;
      try discriminate.
    injection H as <-. rewrite lookup_insert_eq. step_io. rewrite Hsp. step_io.
    now rewrite insert_insert_eq.
Qed.

(** The same, and the device takes less than the output: the part it
    takes is in the output file when the run dies. *)
Lemma run_partial prog inp out fs sp wr data mode :
  fs !! resolve inp = Some (File true wr data) ->
  writable_at fs out = inr mode ->
  sp < String.length (remove_tt data) ->
  run [prog; inp; out] fs sp =
  (inl (IOError ENOSPC (resolve out)),
   {| files := <[resolve out := File mode true (Str.take sp (remove_tt data))]> fs;
      room := 0;
      trace := [EvRead (resolve inp);
                EvWrite (resolve out) (Str.take sp (remove_tt data))] |}).
Proof.
  intros Hin H Hsp. apply Nat.leb_gt in Hsp.
  unfold writable_at in H. step_io. repeat (rewrite Hin; step_io).
  destruct (fs !! resolve out) as [[rd [] old|dw]|]; step_io; try discriminate.
  - injection H as <-. rewrite lookup_insert_eq. step_io. rewrite Hsp. step_io.
    now rewrite insert_insert_eq, Nat.sub_diag.
  - destruct (fs !! parent (resolve out)) as [[rd' wr' old'|[]]|]; step_io;
      try discriminate.
    injection H as <-. rewrite lookup_insert_eq. step_io. rewrite Hsp. step_io.
    now rewrite insert_insert_eq, Nat.sub_diag.
Qed.

(** The five ways a run can go. *)
Lemma run_cases argv fs sp :
  run argv fs sp = (inl ValueError, {| files := fs; room := sp; trace := [] |}) \/
  (exists prog inp out e,
      argv = [prog; inp; out] /\
      run argv fs sp =
      (inl (IOError e inp), {| files := fs; room := sp; trace := [] |})) \/
  (exists prog inp out wr data e,
      argv = [prog; inp; out] /\
      fs !! resolve inp = Some (File true wr data) /\
      run argv fs sp =
      (inl (IOError e out),
       {| files := fs; room := sp; trace := [EvRead (resolve inp)] |})) \/
  (exists prog inp out wr data mode,
      argv = [prog; inp; out] /\
      fs !! resolve inp = Some (File true wr data) /\
      writable_at fs out = inr mode /\
      sp < String.length (remove_tt data) /\
      run argv fs sp =
      (inl (IOError ENOSPC (resolve out)),
       {| files := <[resolve out := File mode true (Str.take sp (remove_tt data))]> fs;
          room := 0;
          trace := [EvRead (resolve inp);
                    EvWrite (resolve out) (Str.take sp (remove_tt data))] |})) \/
  (exists prog inp out wr data mode,
      argv = [prog; inp; out] /\
      fs !! resolve inp = Some (File true wr data) /\
      writable_at fs out = inr mode /\
      String.length (remove_tt data) <= sp /\
      run argv fs sp =
      (inr tt,
       {| files := <[resolve out := File mode true (remove_tt data)]> fs;
          room := sp - String.length (remove_tt data);
          trace := [EvRead (resolve inp);
                    EvWrite (resolve out) (remove_tt data)] |})).
Proof.
  destruct argv as [|prog [|inp [|out [|more argv]]]]; try (left; reflexivity).
  right.
  destruct (fs !! resolve inp) as [[[] wr data|dw]|] eqn:Hin.
  - right. destruct (writable_at fs out) as [e|mode] eqn:Hout.
    + left. exists prog, inp, out, wr, data, e. split_and!; try done.
      now apply (run_bad_output _ _ _ _ _ wr data).
    + right.
      destruct (Nat.le_gt_cases (String.length (remove_tt data)) sp) as [Hsp|Hsp].
      * right. exists prog, inp, out, wr, data, mode. split_and!; try done.
        now apply (run_ok _ _ _ _ _ wr data).
      * left. exists prog, inp, out, wr, data, mode. split_and!; try done.
        now apply (run_partial _ _ _ _ _ wr data).
  - left. exists prog, inp, out, EACCES. split; [reflexivity|].
    apply run_bad_input. now rewrite Hin.
  - left. exists prog, inp, out, EISDIR. split; [reflexivity|].
    apply run_bad_input. now rewrite Hin.
  - left. exists prog, inp, out, ENOENT. split; [reflexivity|].
    apply run_bad_input. now rewrite Hin.
Qed.

End Runs.

(** * The claims about the script *)

(** C7.  When the input path leads to no file the run dies of an I/O
    error on that path, with exit status 1, before anything is read or
    written: the store is as it was, so the output path is untouched,
    and an absent output file stays absent. *)
Theorem missing_input_fails {ns : Namespace} (prog inp out : string)
    (fs : gmap string node) (space : nat) :
  fs !! resolve inp = None ->
  fst (run [prog; inp; out] fs space) = inl (IOError ENOENT inp) /\
  exit_code (run [prog; inp; out] fs space) = 1 /\
  files (snd (run [prog; inp; out] fs space)) = fs /\
  files (snd (run [prog; inp; out] fs space)) !! resolve out = fs !! resolve out /\
  trace (snd (run [prog; inp; out] fs space)) = [].
Proof.
  intros Hin.
  rewrite (run_bad_input prog inp out fs space ENOENT) by now rewrite Hin.
  repeat split.
Qed.

Lemma missing_input_fails_witness :
  fst (run (ns := cwd) ["remove-tt.py"; "in.tex"; "out.tex"] {["." := Dir true]} 100)
    = inl (IOError ENOENT "in.tex") /\
  exit_code (run (ns := cwd) ["remove-tt.py"; "in.tex"; "out.tex"]
               {["." := Dir true]} 100) = 1 /\
  files (snd (run (ns := cwd) ["remove-tt.py"; "in.tex"; "out.tex"]
               {["." := Dir true]} 100)) = {["." := Dir true]} /\
  files (snd (run (ns := cwd) ["remove-tt.py"; "in.tex"; "out.tex"]
               {["." := Dir true]} 100)) !! "out.tex" = None /\
  trace (snd (run (ns := cwd) ["remove-tt.py"; "in.tex"; "out.tex"]
               {["." := Dir true]} 100)) = [].
Proof.
  exact (missing_input_fails (ns := cwd) "remove-tt.py" "in.tex" "out.tex"
           {["." := Dir true]} 100 eq_refl).
Defined.

(** C8 (as amended).  A run that ends with status 0 has read the input
    file once and then written the output file once, and has changed
    the store at the place of the output file only.  A run that fails
    has read at most once and written at most once: when it has
    written nothing the store is as it was; when its write failed the
    output file holds the part of the output that the device took.
    After every run every place other than the place of the output
    file is as before, the input file included when the two paths lead
    to different places. *)
Theorem run_frame {ns : Namespace} (argv : list string)
    (fs : gmap string node) (space : nat) :
  (exit_code (run argv fs space) = 0 ->
     exists prog inp out wr data mode,
       argv = [prog; inp; out] /\
       fs !! resolve inp = Some (File true wr data) /\
       trace (snd (run argv fs space))
         = [EvRead (resolve inp); EvWrite (resolve out) (remove_tt data)] /\
       reads (run argv fs space) = 1 /\
       writes (run argv fs space) = 1 /\
       files (snd (run argv fs space))
         = <[resolve out := File mode true (remove_tt data)]> fs) /\
  (exit_code (run argv fs space) <> 0 ->
     reads (run argv fs space) <= 1 /\
     writes (run argv fs space) <= 1 /\
     (writes (run argv fs space) = 0 -> files (snd (run argv fs space)) = fs) /\
     (writes (run argv fs space) = 1 ->
        exists prog inp out wr data mode,
          argv = [prog; inp; out] /\
          fs !! resolve inp = Some (File true wr data) /\
          space < String.length (remove_tt data) /\
          files (snd (run argv fs space))
            = <[resolve out := File mode true (Str.take space (remove_tt data))]> fs)) /\
  (forall prog inp out place,
     argv = [prog; inp; out] -> place <> resolve out ->
     files (snd (run argv fs space)) !! place = fs !! place).
Proof.
  destruct (run_cases argv fs space)
    as [H|[(prog & inp & out & e & Hargv & H)
          |[(prog & inp & out & wr & data & e & Hargv & Hin & H)
           |[(prog & inp & out & wr & data & mode & Hargv & Hin & Hw & Hsp & H)
            |(prog & inp & out & wr & data & mode & Hargv & Hin & Hw & Hsp & H)]]]];
    rewrite H; unfold exit_code, reads, writes; cbn;
    (split; [|split]).
  - discriminate.
  - intros _. split_and!; [lia | lia | reflexivity | discriminate].
  - reflexivity.
  - discriminate.
  - intros _. split_and!; [lia | lia | reflexivity | discriminate].
  - reflexivity.
  - discriminate.
  - intros _. split_and!; [lia | lia | reflexivity | discriminate].
  - reflexivity.
  - discriminate.
  - intros _. split_and!; [lia | lia | discriminate |].
    intros _. now exists prog, inp, out, wr, data, mode.
  - intros prog' inp' out' place Heq Hp. rewrite Hargv in Heq.
    injection Heq as _ _ <-. now apply lookup_insert_ne.
  - intros _. now exists prog, inp, out, wr, data, mode.
  - intros Hne. now destruct Hne.
  - intros prog' inp' out' place Heq Hp. rewrite Hargv in Heq.
    injection Heq as _ _ <-. now apply lookup_insert_ne.
Qed.

Lemma run_frame_witness :
  files (snd (run (ns := cwd) ["remove-tt.py"; "in.tex"; "./out.tex"]
                {["." := Dir true;
                  "in.tex" := File true true "Use \texttt{foo} here."]} 100))
    !! "in.tex"
  = Some (File true true "Use \texttt{foo} here.").
Proof.
  refine (proj2 (proj2 (run_frame (ns := cwd)
                          ["remove-tt.py"; "in.tex"; "./out.tex"]
                          {["." := Dir true;
                            "in.tex" := File true true "Use \texttt{foo} here."]} 100))
            "remove-tt.py" "in.tex" "./out.tex" "in.tex" eq_refl _).
  discriminate.
Defined.

(** C8 as it is written fails when the two paths lead to the same
    file, be they the same path or two names of one place: the run
    ends with status 0 and the input file holds the output. *)
Lemma same_path_overwrites_input :
  exit_code (run (ns := cwd) ["remove-tt.py"; "a.tex"; "a.tex"]
               {["a.tex" := File true true "\texttt{x}"]} 100) = 0 /\
  ({["a.tex" := File true true "\texttt{x}"]} : gmap string node) !! "a.tex"
    = Some (File true true "\texttt{x}") /\
  files (snd (run (ns := cwd) ["remove-tt.py"; "a.tex"; "a.tex"]
                {["a.tex" := File true true "\texttt{x}"]} 100)) !! "a.tex"
    = Some (File true true "x") /\
  exit_code (run (ns := cwd) ["remove-tt.py"; "a.tex"; "./a.tex"]
               {["a.tex" := File true true "\texttt{x}"]} 100) = 0 /\
  files (snd (run (ns := cwd) ["remove-tt.py"; "a.tex"; "./a.tex"]
                {["a.tex" := File true true "\texttt{x}"]} 100)) !! "a.tex"
    = Some (File true true "x").
Proof. repeat split; vm_compute; reflexivity. Qed.

(** * Further properties of the script *)

(** X10.  With any number of arguments other than two after the name
    of the script, the unpacking of [sys.argv[1:]] raises [ValueError]:
    the run ends with status 1 before any file is opened. *)
Theorem wrong_argument_count {ns : Namespace} (argv : list string)
    (fs : gmap string node) (space : nat) :
  length argv <> 3 ->
  run argv fs space
    = (inl ValueError, {| files := fs; room := space; trace := [] |}) /\
  exit_code (run argv fs space) = 1.
Proof.
  intros Hlen.
  rewrite run_bad_argv; [now split|].
  intros prog inp out ->. now apply Hlen.
Qed.

Lemma wrong_argument_count_witness :
  run (ns := cwd) ["remove-tt.py"; "in.tex"] {["in.tex" := File true true "x"]} 100
    = (inl ValueError,
       {| files := {["in.tex" := File true true "x"]}; room := 100; trace := [] |}) /\
  exit_code (run (ns := cwd) ["remove-tt.py"; "in.tex"]
               {["in.tex" := File true true "x"]} 100) = 1.
Proof.
  apply (wrong_argument_count (ns := cwd) ["remove-tt.py"; "in.tex"]). discriminate.
Defined.

(** X11.  When the input is a readable file, the output path leads to
    a writable file or to no file in a directory that is there and
    writable, and the device takes the whole output, the run ends with
    status 0 after one read and one write, and the output file holds
    the transformed contents of the input and nothing else: what it
    held before is gone.  This covers two paths that lead to the same
    file. *)
Theorem run_succeeds {ns : Namespace} (prog inp out : string)
    (fs : gmap string node) (space : nat) (wr : bool) (data : string) :
  fs !! resolve inp = Some (File true wr data) ->
  (fs !! resolve out = None /\ fs !! parent (resolve out) = Some (Dir true)) \/
  (exists rd old, fs !! resolve out = Some (File rd true old)) ->
  String.length (remove_tt data) <= space ->
  exit_code (run [prog; inp; out] fs space) = 0 /\
  trace (snd (run [prog; inp; out] fs space))
    = [EvRead (resolve inp); EvWrite (resolve out) (remove_tt data)] /\
  exists mode,
    files (snd (run [prog; inp; out] fs space)) !! resolve out
      = Some (File mode true (remove_tt data)).
Proof.
  intros Hin Hout Hsp.
  assert (exists mode, writable_at fs out = inr mode) as [mode Hw].
  { unfold writable_at. destruct Hout as [[Hout Hdir]|(rd & old & Hout)].
    - rewrite Hout, Hdir. now exists true.
    - rewrite Hout. now exists rd. }
  rewrite (run_ok prog inp out fs space wr data mode Hin Hw Hsp).
  split; [reflexivity|]. split; [reflexivity|].
  exists mode. cbn. apply lookup_insert_eq.
Qed.

Lemma run_succeeds_witness :
  exit_code (run (ns := cwd) ["remove-tt.py"; "in.tex"; "out.tex"]
               {["." := Dir true;
                 "in.tex" := File true false "Use \texttt{foo} here."]} 13) = 0 /\
  trace (snd (run (ns := cwd) ["remove-tt.py"; "in.tex"; "out.tex"]
               {["." := Dir true;
                 "in.tex" := File true false "Use \texttt{foo} here."]} 13))
    = [EvRead "in.tex"; EvWrite "out.tex" (remove_tt "Use \texttt{foo} here.")] /\
  exists mode,
    files (snd (run (ns := cwd) ["remove-tt.py"; "in.tex"; "out.tex"]
               {["." := Dir true;
                 "in.tex" := File true false "Use \texttt{foo} here."]} 13))
      !! "out.tex"
      = Some (File mode true (remove_tt "Use \texttt{foo} here.")).
Proof.
  apply (run_succeeds (ns := cwd) "remove-tt.py" "in.tex" "out.tex"
           {["." := Dir true;
             "in.tex" := File true false "Use \texttt{foo} here."]} 13
           false "Use \texttt{foo} here.").
  - reflexivity.
  - left. split; reflexivity.
  - vm_compute. repeat constructor.
Defined.

(** X12.  When the output path leads to a directory, to a file that
    cannot be written, or to no file in a place where none can be
    created (no directory there, or one that cannot be written), the
    run dies of an I/O error on the output path with status 1, after
    the input was read: nothing is written and the store is as it was,
    the old contents of the output file included. *)
Theorem output_not_writable {ns : Namespace} (prog inp out : string)
    (fs : gmap string node) (space : nat) (wr : bool) (data : string) :
  fs !! resolve inp = Some (File true wr data) ->
  (exists dw, fs !! resolve out = Some (Dir dw)) \/
  (exists rd old, fs !! resolve out = Some (File rd false old)) \/
  (fs !! resolve out = None /\ fs !! parent (resolve out) <> Some (Dir true)) ->
  (exists e, fst (run [prog; inp; out] fs space) = inl (IOError e out)) /\
  exit_code (run [prog; inp; out] fs space) = 1 /\
  files (snd (run [prog; inp; out] fs space)) = fs /\
  trace (snd (run [prog; inp; out] fs space)) = [EvRead (resolve inp)].
Proof.
  intros Hin Hout.
  assert (exists e, writable_at fs out = inl e) as [e Hw].
  { unfold writable_at.
    destruct Hout as [[dw Hout]|[(rd & old & Hout)|[Hout Hdir]]]; rewrite Hout.
    - now exists EISDIR.
    - now exists EACCES.
    - destruct (fs !! parent (resolve out)) as [[rd wr' old|[]]|];
        [now exists ENOTDIR | now destruct Hdir | now exists EACCES | now exists ENOENT]. }
  rewrite (run_bad_output prog inp out fs space wr data e Hin Hw).
  split; [now exists e | repeat split].
Qed.

Lemma output_not_writable_witness :
  (exists e, fst (run (ns := cwd) ["remove-tt.py"; "in.tex"; "out.tex"]
                    {["in.tex" := File true true "x"]} 100)
             = inl (IOError e "out.tex")) /\
  exit_code (run (ns := cwd) ["remove-tt.py"; "in.tex"; "out.tex"]
               {["in.tex" := File true true "x"]} 100) = 1 /\
  files (snd (run (ns := cwd) ["remove-tt.py"; "in.tex"; "out.tex"]
               {["in.tex" := File true true "x"]} 100))
    = {["in.tex" := File true true "x"]} /\
  trace (snd (run (ns := cwd) ["remove-tt.py"; "in.tex"; "out.tex"]
               {["in.tex" := File true true "x"]} 100))
    = [EvRead "in.tex"].
Proof.
  apply (output_not_writable (ns := cwd) "remove-tt.py" "in.tex" "out.tex"
           {["in.tex" := File true true "x"]} 100 true "x");
    [reflexivity | right; right; split; [reflexivity | discriminate]].
Defined.

(** X13.  When the input path leads to a directory or to a file that
    cannot be read, the run dies of an I/O error on the input path with
    status 1 before anything is read or written: the output file is
    neither created nor truncated. *)
Theorem input_not_readable {ns : Namespace} (prog inp out : string)
    (fs : gmap string node) (space : nat) :
  (exists dw, fs !! resolve inp = Some (Dir dw)) \/
  (exists wr data, fs !! resolve inp = Some (File false wr data)) ->
  (exists e, fst (run [prog; inp; out] fs space) = inl (IOError e inp)) /\
  exit_code (run [prog; inp; out] fs space) = 1 /\
  files (snd (run [prog; inp; out] fs space)) = fs /\
  trace (snd (run [prog; inp; out] fs space)) = [].
Proof.
  intros Hin.
  assert (exists e,
             run [prog; inp; out] fs space =
             (inl (IOError e inp), {| files := fs; room := space; trace := [] |}))
    as [e H].
  { destruct Hin as [[dw Hin]|(wr & data & Hin)].
    - exists EISDIR. apply run_bad_input. now rewrite Hin.
    - exists EACCES. apply run_bad_input. now rewrite Hin. }
  rewrite H. split; [now exists e | repeat split].
Qed.

Lemma input_not_readable_witness :
  (exists e, fst (run (ns := cwd) ["remove-tt.py"; "doc"; "out.tex"]
                    {["doc" := Dir true]} 100)
             = inl (IOError e "doc")) /\
  exit_code (run (ns := cwd) ["remove-tt.py"; "doc"; "out.tex"]
               {["doc" := Dir true]} 100) = 1 /\
  files (snd (run (ns := cwd) ["remove-tt.py"; "doc"; "out.tex"]
               {["doc" := Dir true]} 100))
    = {["doc" := Dir true]} /\
  trace (snd (run (ns := cwd) ["remove-tt.py"; "doc"; "out.tex"]
               {["doc" := Dir true]} 100)) = [].
Proof.
  apply (input_not_readable (ns := cwd) "remove-tt.py" "doc" "out.tex"
           {["doc" := Dir true]} 100).
  left. now exists true.
Defined.

(** X14.  A successful run whose two paths lead to different places
    can be repeated on a device with no less room: the second run
    succeeds as well and leaves the store as the first run left it. *)
Theorem rerun_is_stable {ns : Namespace} (prog inp out : string)
    (fs : gmap string node) (space space' : nat) :
  resolve inp <> resolve out ->
  space <= space' ->
  exit_code (run [prog; inp; out] fs space) = 0 ->
  exit_code (run [prog; inp; out]
               (files (snd (run [prog; inp; out] fs space))) space') = 0 /\
  files (snd (run [prog; inp; out]
                (files (snd (run [prog; inp; out] fs space))) space'))
    = files (snd (run [prog; inp; out] fs space)).
Proof.
  intros Hne Hle Hexit.
  destruct (run_cases [prog; inp; out] fs space)
    as [H|[(p & i & o & e & Hargv & H)
          |[(p & i & o & wr & data & e & Hargv & Hin & H)
           |[(p & i & o & wr & data & mode & Hargv & Hin & Hw & Hsp & H)
            |(p & i & o & wr & data & mode & Hargv & Hin & Hw & Hsp & H)]]]];
    rewrite H in Hexit |- *; try discriminate.
  injection Hargv as <- <- <-. cbn [snd files].
  rewrite (run_ok prog inp out _ space' wr data mode).
  - split; [reflexivity|]. cbn [snd files]. apply insert_insert_eq.
  - now rewrite lookup_insert_ne.
  - unfold writable_at. now rewrite lookup_insert_eq.
  - lia.
Qed.

Lemma rerun_is_stable_witness :
  exit_code (run (ns := cwd) ["remove-tt.py"; "in.tex"; "out.tex"]
    (files (snd (run (ns := cwd) ["remove-tt.py"; "in.tex"; "out.tex"]
                   {["." := Dir true; "in.tex" := File true true "\texttt{x}"]} 5)))
    5) = 0 /\
  files (snd (run (ns := cwd) ["remove-tt.py"; "in.tex"; "out.tex"]
    (files (snd (run (ns := cwd) ["remove-tt.py"; "in.tex"; "out.tex"]
                   {["." := Dir true; "in.tex" := File true true "\texttt{x}"]} 5)))
    5))
    = files (snd (run (ns := cwd) ["remove-tt.py"; "in.tex"; "out.tex"]
                   {["." := Dir true; "in.tex" := File true true "\texttt{x}"]} 5)).
Proof.
  apply (rerun_is_stable (ns := cwd) "remove-tt.py" "in.tex" "out.tex"
           {["." := Dir true; "in.tex" := File true true "\texttt{x}"]} 5 5);
    [discriminate | constructor | reflexivity].
Defined.

(** X15.  When the output can be opened and the device takes fewer
    characters than the output has, the run dies of an I/O error with
    status 1 after one read and one write, and leaves behind an output
    file that holds the beginning of the output, as much as the device
    took, in place of what the file held before. *)
Theorem failed_write_leaves_part {ns : Namespace} (prog inp out : string)
    (fs : gmap string node) (space : nat) (wr : bool) (data : string) :
  fs !! resolve inp = Some (File true wr data) ->
  (fs !! resolve out = None /\ fs !! parent (resolve out) = Some (Dir true)) \/
  (exists rd old, fs !! resolve out = Some (File rd true old)) ->
  space < String.length (remove_tt data) ->
  exit_code (run [prog; inp; out] fs space) = 1 /\
  trace (snd (run [prog; inp; out] fs space))
    = [EvRead (resolve inp);
       EvWrite (resolve out) (Str.take space (remove_tt data))] /\
  exists mode,
    files (snd (run [prog; inp; out] fs space)) !! resolve out
      = Some (File mode true (Str.take space (remove_tt data))).
Proof.
  intros Hin Hout Hsp.
  assert (exists mode, writable_at fs out = inr mode) as [mode Hw].
  { unfold writable_at. destruct Hout as [[Hout Hdir]|(rd & old & Hout)].
    - rewrite Hout, Hdir. now exists true.
    - rewrite Hout. now exists rd. }
  rewrite (run_partial prog inp out fs space wr data mode Hin Hw Hsp).
  split; [reflexivity|]. split; [reflexivity|].
  exists mode. cbn. apply lookup_insert_eq.
Qed.

Lemma failed_write_leaves_part_witness :
  exit_code (run (ns := cwd) ["remove-tt.py"; "in.tex"; "out.tex"]
               {["in.tex" := File true true "Use \texttt{foo} here.";
                 "out.tex" := File true true "old contents"]} 7) = 1 /\
  trace (snd (run (ns := cwd) ["remove-tt.py"; "in.tex"; "out.tex"]
               {["in.tex" := File true true "Use \texttt{foo} here.";
                 "out.tex" := File true true "old contents"]} 7))
    = [EvRead "in.tex";
       EvWrite "out.tex" (Str.take 7 (remove_tt "Use \texttt{foo} here."))] /\
  exists mode,
    files (snd (run (ns := cwd) ["remove-tt.py"; "in.tex"; "out.tex"]
               {["in.tex" := File true true "Use \texttt{foo} here.";
                 "out.tex" := File true true "old contents"]} 7)) !! "out.tex"
      = Some (File mode true (Str.take 7 (remove_tt "Use \texttt{foo} here."))).
Proof.
  apply (failed_write_leaves_part (ns := cwd) "remove-tt.py" "in.tex" "out.tex"
           {["in.tex" := File true true "Use \texttt{foo} here.";
             "out.tex" := File true true "old contents"]} 7
           true "Use \texttt{foo} here.").
  - reflexivity.
  - right. now exists true, "old contents".
  - vm_compute. repeat constructor.
Defined.
